(** * Speaking Opportunity Finder: store, ingestion and queries

    A shallow embedding of [src/scrape.py] (schema, upsert statement, the
    ingestion run [main]) and of [src/app/main.py] (the query builder
    [fetch_opportunities] and the two endpoints that call it).

    The program talks to its database in SQL.  The statements are written in
    PostgreSQL's dialect ([SERIAL], [ON CONFLICT ... DO UPDATE], [EXCLUDED]),
    and the embedding gives them PostgreSQL's meaning:
    - a table is the list of its rows together with the state of the sequence
      that feeds the [SERIAL] column;
    - a statement either completes or raises a database error;
    - SQL conditions are three-valued ([option bool], [None] being NULL) and a
      [WHERE] clause keeps the rows on which the condition is TRUE;
    - text is a [string] of 8-bit characters, and lower-casing acts on the
      letters A to Z. *)

From Stdlib Require Import ZArith List Bool String Ascii Lia.
From Stdlib Require Import Permutation Sorted DecimalString.
Import ListNotations.

Open Scope string_scope.
Open Scope list_scope.
Open Scope Z_scope.

(** ** Calendar dates ([datetime.date], SQL [DATE]) *)

Record date := mkDate { year : Z; month : Z; day : Z }.

Definition date_compare (a b : date) : comparison :=
  match year a ?= year b with
  | Eq => match month a ?= month b with
          | Eq => day a ?= day b
          | c => c
          end
  | c => c
  end.

Definition date_leb (a b : date) : bool :=
  match date_compare a b with Gt => false | _ => true end.

(** [today.replace(day=n)] *)
Definition replace_day (d : date) (n : Z) : date :=
  mkDate (year d) (month d) n.

(** ** Text: [str.lower], SQL [LOWER] and SQL [LIKE] *)

Definition lower_ascii (c : ascii) : ascii :=
  let n := N_of_ascii c in
  if (65 <=? n)%N && (n <=? 90)%N then ascii_of_N (n + 32) else c.

Fixpoint lower (s : string) : string :=
  match s with
  | EmptyString => EmptyString
  | String c s' => String (lower_ascii c) (lower s')
  end.



(** [like_match p s] is [s LIKE p].  A pattern that ends in a lone escape
    character is an error in PostgreSQL; the patterns built by
    [fetch_opportunities] all end in [%], so the case does not arise and is
    given [false]. *)
Fixpoint like_match (p s : string) : bool :=
  match p with
  | EmptyString =>
      match s with EmptyString => true | String _ _ => false end
  | String c p' =>
      if Ascii.eqb c "%" then
        (fix skip (t : string) : bool :=
           like_match p' t
           || match t with
              | EmptyString => false
              | String _ t' => skip t'
              end) s
      else if Ascii.eqb c "_" then
        match s with
        | EmptyString => false
        | String _ s' => like_match p' s'
        end
      else if Ascii.eqb c "\" then
        match p' with
        | EmptyString => false
        | String e p'' =>
            match s with
            | EmptyString => false
            | String d s' => Ascii.eqb d e && like_match p'' s'
            end
        end
      else
        match s with
        | EmptyString => false
        | String d s' => Ascii.eqb d c && like_match p' s'
        end
  end.



(** Three-valued SQL connectives. *)
Definition sql_or (a b : option bool) : option bool :=
  match a, b with
  | Some true, _ | _, Some true => Some true
  | Some false, Some false => Some false
  | _, _ => None
  end.

Definition sql_and (a b : option bool) : option bool :=
  match a, b with
  | Some false, _ | _, Some false => Some false
  | Some true, Some true => Some true
  | _, _ => None
  end.

(** [LOWER(col) LIKE :p] on a nullable text column. *)
Definition lower_like (col : option string) (p : string) : option bool :=
  match col with
  | None => None
  | Some s => Some (like_match p (lower s))
  end.

(** [col = :b] on a nullable boolean column. *)
Definition sql_eq_bool (col : option bool) (b : bool) : option bool :=
  match col with
  | None => None
  | Some c => Some (Bool.eqb c b)
  end.

(** ** The [opportunities] table ([SCHEMA_SQL]) *)

(** A stored row.  The columns declared [NOT NULL] (and the primary key)
    carry a value; the others are nullable. *)
Record row := mkRow {
  id : Z;
  title : string;
  organizer : option string;
  url : string;
  location : option string;
  is_remote : option bool;
  topic_tags : option string;
  cfp_deadline : option date;
  event_date : option date;
  source : option string;
  last_seen : date
}.

(** The bind parameters of [UPSERT_SQL]: the ten keys of an [item]
    dictionary, each of which may hold [None]. *)
Module Item.
Record t := mk {
  title : option string;
  organizer : option string;
  url : option string;
  location : option string;
  is_remote : option bool;
  topic_tags : option string;
  cfp_deadline : option date;
  event_date : option date;
  source : option string;
  last_seen : option date
}.
End Item.

(** The table and the sequence behind [id SERIAL]: [id_seq] is the value the
    next [nextval] hands out. *)
Record table := mkTable { rows : list row; id_seq : Z }.

(** A database in which the table may not have been created yet. *)
Definition database := option table.

Definition empty_table : table := {| rows := []; id_seq := 1 |}.

(** [CREATE TABLE IF NOT EXISTS opportunities (...)] *)
Definition SCHEMA_SQL (d : database) : table :=
  match d with
  | Some t => t
  | None => empty_table
  end.

(** Largest value of a [SERIAL] (32-bit) sequence and of a [bigint]. *)
Definition max_serial : Z := 2147483647.
Definition max_bigint : Z := 9223372036854775807.

Inductive db_error :=
  | NotNullViolation
  | UniqueViolation
  | SequenceExhausted
  | NumericValueOutOfRange
  | InvalidRowCountInLimitClause.

(** What a statement leaves behind: the table after it completed, or the
    error it raised with the table as the failed statement left it (its rows
    untouched; a sequence value once drawn is not given back). *)
Inductive outcome :=
  | Done (t : table)
  | Raised (e : db_error) (t : table).

Definition table_of (o : outcome) : table :=
  match o with Done t => t | Raised _ t => t end.

(** [ON CONFLICT (url) DO UPDATE SET ...]: every column but [id] and [url]
    takes the value proposed for insertion. *)
Definition do_update_set (r : row) (ti : string) (ls : date) (it : Item.t)
  : row :=
  {| id := id r;
     title := ti;
     organizer := Item.organizer it;
     url := url r;
     location := Item.location it;
     is_remote := Item.is_remote it;
     topic_tags := Item.topic_tags it;
     cfp_deadline := Item.cfp_deadline it;
     event_date := Item.event_date it;
     source := Item.source it;
     last_seen := ls |}.

(** The row proposed for insertion, [id] drawn from the sequence. *)
Definition excluded (new_id : Z) (ti u : string) (ls : date) (it : Item.t)
  : row :=
  {| id := new_id;
     title := ti;
     organizer := Item.organizer it;
     url := u;
     location := Item.location it;
     is_remote := Item.is_remote it;
     topic_tags := Item.topic_tags it;
     cfp_deadline := Item.cfp_deadline it;
     event_date := Item.event_date it;
     source := Item.source it;
     last_seen := ls |}.

(** Look for the row that conflicts on [url]; when there is one, update it
    where it stands. *)
Fixpoint on_conflict (u : string) (upd : row -> row) (rs : list row)
  : option (list row) :=
  match rs with
  | [] => None
  | r :: rs' =>
      if String.eqb (url r) u then Some (upd r :: rs')
      else option_map (cons r) (on_conflict u upd rs')
  end.

(** [UPSERT_SQL] executed with the parameters [it]. *)
Definition UPSERT_SQL (it : Item.t) (t : table) : outcome :=
  if max_serial <? id_seq t then Raised SequenceExhausted t
  else
    let new_id := id_seq t in
    let seq' := id_seq t + 1 in
    match Item.title it, Item.url it, Item.last_seen it with
    | Some ti, Some u, Some ls =>
        match on_conflict u (fun r => do_update_set r ti ls it) (rows t) with
        | Some rs' => Done {| rows := rs'; id_seq := seq' |}
        | None =>
            if existsb (fun r => id r =? new_id) (rows t)
            then Raised UniqueViolation {| rows := rows t; id_seq := seq' |}
            else Done {| rows := rows t ++ [excluded new_id ti u ls it];
                         id_seq := seq' |}
        end
    | _, _, _ => Raised NotNullViolation {| rows := rows t; id_seq := seq' |}
    end.

(** A run of upsert statements, each on the table the previous one left. *)
Fixpoint upserts (items : list Item.t) (t : table) : table :=
  match items with
  | [] => t
  | it :: rest => upserts rest (table_of (UPSERT_SQL it t))
  end.

(** ** The ingestion run ([main] of [scrape.py]) *)

(** The three dictionaries of [sample], built from [today]. *)
Definition sample (today : date) : list Item.t :=
  [ {| Item.title := Some "Call for Speakers: AI Infrastructure Summit";
       Item.organizer := Some "Example Events";
       Item.url := Some "https://example.com/cfp/ai-infra";
       Item.location := Some "San Francisco, CA";
       Item.is_remote := Some false;
       Item.topic_tags := Some "AI, data centers, infrastructure";
       Item.cfp_deadline := Some (replace_day today (Z.min (day today) 28));
       Item.event_date := None;
       Item.source := Some "sample";
       Item.last_seen := Some today |};
    {| Item.title := Some "Webinar Speakers Needed: Sustainable Energy Tech";
       Item.organizer := Some "Example Webinar Org";
       Item.url := Some "https://example.com/cfp/sustainability-webinar";
       Item.location := Some "Remote";
       Item.is_remote := Some true;
       Item.topic_tags := Some "sustainability, energy, grid";
       Item.cfp_deadline := None;
       Item.event_date := None;
       Item.source := Some "sample";
       Item.last_seen := Some today |};
    {| Item.title :=
         Some "Panel Opportunity: Cybersecurity in Industrial Systems";
       Item.organizer := Some "Example Conference";
       Item.url := Some "https://example.com/cfp/ics-security";
       Item.location := Some "Chicago, IL";
       Item.is_remote := Some false;
       Item.topic_tags := Some "cybersecurity, industrial, OT";
       Item.cfp_deadline := None;
       Item.event_date := None;
       Item.source := Some "sample";
       Item.last_seen := Some today |} ].

(** [for item in sample: conn.execute(text(UPSERT_SQL), item)]: the first
    statement that raises ends the loop. *)
Fixpoint execute_each (items : list Item.t) (t : table) : outcome :=
  match items with
  | [] => Done t
  | it :: rest =>
      match UPSERT_SQL it t with
      | Done t' => execute_each rest t'
      | Raised e t' => Raised e t'
      end
  end.

(** Leaving [with engine.begin()] by an exception rolls the transaction
    back: the rows (and the creation of the table) are undone, the sequence
    keeps the values it has drawn. *)
Definition rollback (d : database) (failed : table) : database :=
  match d with
  | None => None
  | Some t0 => Some {| rows := rows t0; id_seq := id_seq failed |}
  end.

(** How a run ends: it committed and printed a line, or an exception left
    it. *)
Inductive run :=
  | Printed (d : database) (line : string)
  | Failed (d : database) (e : db_error).

Definition database_of (r : run) : database :=
  match r with Printed d _ => d | Failed d _ => d end.

Definition string_of_nat (n : nat) : string :=
  NilZero.string_of_uint (Nat.to_uint n).

(** The body of [main], for any list bound to [sample]. *)
Definition main_with (items : list Item.t) (d : database) : run :=
  match execute_each items (SCHEMA_SQL d) with
  | Done t =>
      Printed (Some t)
        ("Inserted/updated " ++ string_of_nat (List.length items)
         ++ " items.")%string
  | Raised e t => Failed (rollback d t) e
  end.

(** [main()], run on the day [today] = [date.today()]. *)
Definition main (today : date) (d : database) : run :=
  main_with (sample today) d.

(** The rows a database holds (none while the table does not exist). *)
Definition stored (d : database) : list row :=
  match d with
  | Some t => rows t
  | None => []
  end.

(** What one upsert did to a table, and how many statements of a run of
    upserts inserted and how many updated. *)
Definition is_update (it : Item.t) (t : table) : bool :=
  match Item.url it with
  | Some u => existsb (fun r => String.eqb (url r) u) (rows t)
  | None => false
  end.

Fixpoint count_inserted (items : list Item.t) (t : table) : nat :=
  match items with
  | [] => O
  | it :: rest =>
      ((if is_update it t then 0 else 1)
       + count_inserted rest (table_of (UPSERT_SQL it t)))%nat
  end.

Fixpoint count_updated (items : list Item.t) (t : table) : nat :=
  match items with
  | [] => O
  | it :: rest =>
      ((if is_update it t then 1 else 0)
       + count_updated rest (table_of (UPSERT_SQL it t)))%nat
  end.

(** ** The query ([fetch_opportunities] of [app/main.py]) *)

Inductive result (A : Type) :=
  | Ok (a : A)
  | Err (e : db_error).
Arguments Ok {A} a.
Arguments Err {A} e.

(** [if q:] on an [Optional[str]]: neither [None] nor the empty string. *)
Definition truthy (o : option string) : bool :=
  match o with
  | Some (String _ _) => true
  | _ => false
  end.

(** [f"%{q.lower()}%"] *)
Definition like_param (q : string) : string :=
  ("%" ++ lower q ++ "%")%string.

(** [(LOWER(title) LIKE :q OR LOWER(organizer) LIKE :q)] *)
Definition q_clause (p : string) (r : row) : option bool :=
  sql_or (lower_like (Some (title r)) p) (lower_like (organizer r) p).

(** [(LOWER(topic_tags) LIKE :tag)] *)
Definition tag_clause (p : string) (r : row) : option bool :=
  lower_like (topic_tags r) p.

(** [(is_remote = :remote)] *)
Definition remote_clause (b : bool) (r : row) : option bool :=
  sql_eq_bool (is_remote r) b.

(** The list [where], filled by the three [if]s in turn. *)
Definition where_list (q tag : option string) (remote : option bool)
  : list (row -> option bool) :=
  let conds := [] in
  let conds :=
    match q with
    | Some s => if truthy q then conds ++ [q_clause (like_param s)] else conds
    | None => conds
    end in
  let conds :=
    match tag with
    | Some s =>
        if truthy tag then conds ++ [tag_clause (like_param s)] else conds
    | None => conds
    end in
  let conds :=
    match remote with
    | Some b => conds ++ [remote_clause b]
    | None => conds
    end in
  conds.

(** [" AND ".join(where)] *)
Fixpoint and_join (conds : list (row -> option bool)) (r : row)
  : option bool :=
  match conds with
  | [] => Some true
  | [w] => w r
  | w :: rest => sql_and (w r) (and_join rest r)
  end.

(** [where_clause]: no [WHERE] at all for an empty list, else the rows on
    which the conjunction is TRUE. *)
Definition where_clause (conds : list (row -> option bool)) (r : row)
  : bool :=
  match conds with
  | [] => true
  | _ =>
      match and_join conds r with
      | Some true => true
      | _ => false
      end
  end.

(** [ORDER BY CASE WHEN cfp_deadline IS NULL THEN 1 ELSE 0 END,
    cfp_deadline ASC, last_seen DESC] *)
Definition null_case (r : row) : Z :=
  match cfp_deadline r with
  | None => 1
  | Some _ => 0
  end.

(** Ascending order on a nullable date, NULLs last. *)
Definition asc_compare (a b : option date) : comparison :=
  match a, b with
  | Some x, Some y => date_compare x y
  | Some _, None => Lt
  | None, Some _ => Gt
  | None, None => Eq
  end.

Definition order_compare (a b : row) : comparison :=
  match null_case a ?= null_case b with
  | Eq =>
      match asc_compare (cfp_deadline a) (cfp_deadline b) with
      | Eq => date_compare (last_seen b) (last_seen a)
      | c => c
      end
  | c => c
  end.

Definition order_leb (a b : row) : bool :=
  match order_compare a b with Gt => false | _ => true end.

(** Sorting by the three keys.  SQL leaves the order of rows with equal
    keys open; the insertion sort below keeps them in table order. *)
Fixpoint insert_row (r : row) (l : list row) : list row :=
  match l with
  | [] => [r]
  | x :: l' => if order_leb r x then r :: l else x :: insert_row r l'
  end.

Fixpoint order_by (l : list row) : list row :=
  match l with
  | [] => []
  | r :: l' => insert_row r (order_by l')
  end.

(** [LIMIT :limit]: the parameter is read as a [bigint].  A negative one is
    an error in PostgreSQL (SQLite would read it as no limit at all); the
    properties of the query are stated for limits that are not negative. *)
Definition sql_limit (limit : Z) (l : list row) : result (list row) :=
  if (limit <? - max_bigint - 1) || (max_bigint <? limit)
  then Err NumericValueOutOfRange
  else if limit <? 0 then Err InvalidRowCountInLimitClause
  else Ok (firstn (Z.to_nat limit) l).


Definition fetch_opportunities
  (q tag : option string) (remote : option bool) (limit : Z) (t : table)
  : result (list row) :=
  let conds := where_list q tag remote in
  sql_limit limit (order_by (filter (where_clause conds) (rows t))).

(** ** The endpoints *)

(** The three-way [remote_bool] of [home]. *)
Definition remote_bool (remote : option string) : option bool :=
  match remote with
  | Some s =>
      if String.eqb s "yes" then Some true
      else if String.eqb s "no" then Some false
      else None
  | None => None
  end.

(** The [results] that [home] goes on to render. *)
Definition home_results (q tag remote : option string) (t : table)
  : result (list row) :=
  fetch_opportunities q tag (remote_bool remote) 50 t.











(** ** Properties stated on the model *)

(** The constraints of the schema that a table satisfies at all times: [url]
    is unique, [id] is unique, and every [id] came out of the sequence. *)
Record well_formed (t : table) : Prop := {
  wf_url : NoDup (map url (rows t));
  wf_id : NoDup (map id (rows t));
  wf_seq : Forall (fun r => id r < id_seq t) (rows t)
}.

(** The rows stored under a given url. *)
Definition with_url (u : string) (l : list row) : list row :=
  filter (fun r => String.eqb (url r) u) l.

(** The ordering contract between two neighbours of a result. *)
Definition in_order (a b : row) : Prop :=
  (exists x y, cfp_deadline a = Some x /\ cfp_deadline b = Some y
               /\ date_leb x y = true)
  \/ (cfp_deadline a <> None /\ cfp_deadline b = None)
  \/ (cfp_deadline a = None /\ cfp_deadline b = None
      /\ date_leb (last_seen b) (last_seen a) = true).

(** [a] stands immediately before [b] in [l]. *)
Definition adjacent (a b : row) (l : list row) : Prop :=
  exists l1 l2 : list row, l = l1 ++ a :: b :: l2.




(** The row test of a query: the [WHERE] clause built from its filters. *)
Definition selected (q tag : option string) (remote : option bool) (r : row)
  : bool :=
  where_clause (where_list q tag remote) r.

(** A row with another value in its [is_remote] column. *)
Definition set_is_remote (v : option bool) (r : row) : row :=
  {| id := id r;
     title := title r;
     organizer := organizer r;
     url := url r;
     location := location r;
     is_remote := v;
     topic_tags := topic_tags r;
     cfp_deadline := cfp_deadline r;
     event_date := event_date r;
     source := source r;
     last_seen := last_seen r |}.

(** An item passes the validation the specification asks of ingestion:
    title and url present and not empty. *)
Definition valid_item (it : Item.t) : bool :=
  truthy (Item.title it) && truthy (Item.url it).

(** The columns declared [NOT NULL] are given a value by the item. *)
Definition required_present (it : Item.t) : bool :=
  match Item.title it, Item.url it, Item.last_seen it with
  | Some _, Some _, Some _ => true
  | _, _, _ => false
  end.

(** The five ways the statement can go. *)
Inductive upsert_case (it : Item.t) (t : table) : outcome -> Prop :=
  | case_exhausted :
      max_serial < id_seq t ->
      upsert_case it t (Raised SequenceExhausted t)
  | case_null :
      id_seq t <= max_serial ->
      Item.title it = None \/ Item.url it = None \/ Item.last_seen it = None ->
      upsert_case it t
        (Raised NotNullViolation {| rows := rows t; id_seq := id_seq t + 1 |})
  | case_update ti u ls rs' :
      id_seq t <= max_serial ->
      Item.title it = Some ti -> Item.url it = Some u ->
      Item.last_seen it = Some ls ->
      on_conflict u (fun r => do_update_set r ti ls it) (rows t) = Some rs' ->
      upsert_case it t (Done {| rows := rs'; id_seq := id_seq t + 1 |})
  | case_id_taken ti u ls :
      id_seq t <= max_serial ->
      Item.title it = Some ti -> Item.url it = Some u ->
      Item.last_seen it = Some ls ->
      ~ In u (map url (rows t)) ->
      In (id_seq t) (map id (rows t)) ->
      upsert_case it t
        (Raised UniqueViolation {| rows := rows t; id_seq := id_seq t + 1 |})
  | case_insert ti u ls :
      id_seq t <= max_serial ->
      Item.title it = Some ti -> Item.url it = Some u ->
      Item.last_seen it = Some ls ->
      ~ In u (map url (rows t)) ->
      ~ In (id_seq t) (map id (rows t)) ->
      upsert_case it t
        (Done {| rows := rows t ++ [excluded (id_seq t) ti u ls it];
                 id_seq := id_seq t + 1 |}).

(** The same item presented on another day, and a row as it is after such
    a second presentation. *)
Definition seen_on (d : date) (it : Item.t) : Item.t :=
  {| Item.title := Item.title it;
     Item.organizer := Item.organizer it;
     Item.url := Item.url it;
     Item.location := Item.location it;
     Item.is_remote := Item.is_remote it;
     Item.topic_tags := Item.topic_tags it;
     Item.cfp_deadline := Item.cfp_deadline it;
     Item.event_date := Item.event_date it;
     Item.source := Item.source it;
     Item.last_seen := Some d |}.

Definition row_seen_on (d : date) (r : row) : row :=
  {| id := id r;
     title := title r;
     organizer := organizer r;
     url := url r;
     location := location r;
     is_remote := is_remote r;
     topic_tags := topic_tags r;
     cfp_deadline := cfp_deadline r;
     event_date := event_date r;
     source := source r;
     last_seen := d |}.

(** ** Example data *)

Definition day1 : date := mkDate 2025 1 15.
Definition day2 : date := mkDate 2025 3 1.

Definition item_x (new_title : string) (seen : date) : Item.t :=
  {| Item.title := Some new_title;
     Item.organizer := None;
     Item.url := Some "https://example.com/x";
     Item.location := None;
     Item.is_remote := Some true;
     Item.topic_tags := Some "AI";
     Item.cfp_deadline := Some day2;
     Item.event_date := None;
     Item.source := None;
     Item.last_seen := Some seen |}.

(** A table holding one row, stored on [day1] under the url of [item_x]. *)
Definition table_x : table := upserts [item_x "first" day1] empty_table.

Definition candidate (ti u : string) (remote : bool) (tags : string)
  (deadline : option date) (seen : date) : Item.t :=
  {| Item.title := Some ti;
     Item.organizer := None;
     Item.url := Some u;
     Item.location := None;
     Item.is_remote := Some remote;
     Item.topic_tags := Some tags;
     Item.cfp_deadline := deadline;
     Item.event_date := None;
     Item.source := None;
     Item.last_seen := Some seen |}.

(** Three stored opportunities: X closes on 2025-03-01, Y has no deadline,
    Z closes on 2025-01-15. *)
Definition table_xyz : table :=
  upserts [ candidate "Talk X" "X" true "AI" (Some day2) day1;
            candidate "Talk Y" "Y" false "sustainability" None day1;
            candidate "Talk Z" "Z" false "AI, grid" (Some day1) day1 ]
          empty_table.

(** The rows of a result, none when the query raised. *)
Definition rows_of (r : result (list row)) : list row :=
  match r with
  | Ok l => l
  | Err _ => []
  end.

(** An item with an empty title and an empty url, and one with no title. *)
Definition item_empty : Item.t :=
  candidate EmptyString EmptyString false EmptyString None day1.

Definition item_untitled : Item.t :=
  {| Item.title := None;
     Item.organizer := None;
     Item.url := Some "https://example.com/untitled";
     Item.location := None;
     Item.is_remote := None;
     Item.topic_tags := None;
     Item.cfp_deadline := None;
     Item.event_date := None;
     Item.source := None;
     Item.last_seen := Some day1 |}.

(** A row to stand for "no such row" when a result is indexed. *)
Definition no_row : row :=
  mkRow 0 EmptyString None EmptyString None None None None None None day1.

(** ** Database configuration ([_normalize_database_url], [get_engine]) *)

(** [s[n:]] *)
Fixpoint skip (n : nat) (s : string) : string :=
  match n, s with
  | O, _ => s
  | S _, EmptyString => EmptyString
  | S n', String _ s' => skip n' s'
  end.

(** [s.replace(old, new, 1)]: the first occurrence of [old], read from the
    left, is replaced; [s] is returned as it is when there is none. *)
Fixpoint replace_first (old new s : string) : string :=
  if String.prefix old s then (new ++ skip (String.length old) s)%string
  else
    match s with
    | EmptyString => EmptyString
    | String c s' => String c (replace_first old new s')
    end.

Definition _normalize_database_url (url : string) : string :=
  if String.prefix "postgres://" url
  then replace_first "postgres://" "postgresql://" url
  else url.

Definition sqlite_fallback : string := "sqlite:///./opportunities.db".

(** The arguments [create_engine] is called with. *)
Record engine_args := {
  engine_url : string;
  pool_pre_ping : bool;
  connect_args : list (string * bool)
}.

(** [get_engine] of [app/main.py]; its argument is the value of the
    environment variable [DATABASE_URL], [None] when it is not set. *)
Definition get_engine (DATABASE_URL : option string) : engine_args :=
  let db_url := DATABASE_URL in
  let db_url :=
    match db_url with
    | Some (String c s) => String c s
    | _ => sqlite_fallback
    end in
  let db_url := _normalize_database_url db_url in
  let args :=
    if String.prefix "sqlite" db_url
    then [("check_same_thread"%string, false)]
    else [] in
  {| engine_url := db_url; pool_pre_ping := true; connect_args := args |}.

(** The module-level [engine] of [scrape.py]:
    [os.getenv("DATABASE_URL", "sqlite:///./opportunities.db")], normalised. *)
Definition scrape_engine (DATABASE_URL : option string) : engine_args :=
  let DB_URL :=
    match DATABASE_URL with
    | Some s => s
    | None => sqlite_fallback
    end in
  {| engine_url := _normalize_database_url DB_URL;
     pool_pre_ping := true;
     connect_args := [] |}.

(** [init_db] of [app/main.py] *)
Definition init_db (d : database) : database := Some (SCHEMA_SQL d).

(** ** Rendering ([esc] and the form of [home]) *)

(** [s.replace(old, new)] for an [old] of one character. *)
Fixpoint replace_char (old : ascii) (new s : string) : string :=
  match s with
  | EmptyString => EmptyString
  | String c s' =>
      if Ascii.eqb c old then (new ++ replace_char old new s')%string
      else String c (replace_char old new s')
  end.

(** [esc] of [home]: the text, or the empty text for [None], with [&], [<]
    and [>] replaced, in that order. *)
Definition esc (s : option string) : string :=
  let s :=
    match s with
    | Some (String c r) => String c r
    | _ => EmptyString
    end in
  replace_char ">" "&gt;"
    (replace_char "<" "&lt;" (replace_char "&" "&amp;" s)).

(** What [esc] makes of one character. *)
Definition esc_char (c : ascii) : string :=
  if Ascii.eqb c "&" then "&amp;"
  else if Ascii.eqb c "<" then "&lt;"
  else if Ascii.eqb c ">" then "&gt;"
  else String c EmptyString.

(** A character occurs in a string. *)
Fixpoint has_char (c : ascii) (s : string) : bool :=
  match s with
  | EmptyString => false
  | String d s' => Ascii.eqb d c || has_char c s'
  end.

Definition double_quote : ascii := ascii_of_nat 34.

(** The three [selected] attributes of the [remote] drop-down of [home]:
    "any", "Remote only", "In-person only". *)
Definition remote_options (remote : option string) : bool * bool * bool :=
  (match remote with None => true | Some _ => false end,
   match remote with Some s => String.eqb s "yes" | None => false end,
   match remote with Some s => String.eqb s "no" | None => false end).

(** ** Calendar validity ([date.replace]) *)

Definition is_leap (y : Z) : bool :=
  (y mod 4 =? 0) && (negb (y mod 100 =? 0) || (y mod 400 =? 0)).

Definition days_in_month (y m : Z) : Z :=
  if m =? 2 then (if is_leap y then 29 else 28)
  else if (m =? 4) || (m =? 6) || (m =? 9) || (m =? 11) then 30
  else 31.

(** The dates [datetime.date] can hold. *)
Definition valid_date (d : date) : bool :=
  (1 <=? year d) && (year d <=? 9999)
  && (1 <=? month d) && (month d <=? 12)
  && (1 <=? day d) && (day d <=? days_in_month (year d) (month d)).

(** [d.replace(day=n)], which raises [ValueError] ([None]) when the day does
    not exist in the month. *)
Definition date_replace_day (d : date) (n : Z) : option date :=
  if valid_date (replace_day d n) then Some (replace_day d n) else None.

(** [esc] character by character. *)
Fixpoint escape_each (s : string) : string :=
  match s with
  | EmptyString => EmptyString
  | String c s' => (esc_char c ++ escape_each s')%string
  end.

(** A [LIKE] pattern ends in a lone escape character (which PostgreSQL
    rejects): read from the left, an escape character takes the character
    after it with it. *)
Fixpoint ends_in_escape (p : string) : bool :=
  match p with
  | EmptyString => false
  | String c p' =>
      if Ascii.eqb c "\" then
        match p' with
        | EmptyString => true
        | String _ p'' => ends_in_escape p''
        end
      else ends_in_escape p'
  end.

(** ** Comparisons *)

(** What makes a three-way comparison the comparison of a total preorder:
    being equal can be exchanged on either side, and being less is
    transitive. *)
Record cmp_laws {A : Type} (c : A -> A -> comparison) : Prop := {
  cmp_eq_l : forall a b d r, c a b = Eq -> c b d = r -> c a d = r;
  cmp_eq_r : forall a b d r, c a b = r -> c b d = Eq -> c a d = r;
  cmp_lt_trans : forall a b d, c a b = Lt -> c b d = Lt -> c a d = Lt
}.

(** Comparing by [c1] first and by [c2] among those [c1] finds equal, as a
    list of [ORDER BY] keys does. *)
Definition lex {A : Type} (c1 c2 : A -> A -> comparison) (a b : A)
  : comparison :=
  match c1 a b with
  | Eq => c2 a b
  | c => c
  end.

(** ** Batches *)

(** The last item of a batch that names the url [u]. *)
Fixpoint latest (u : string) (items : list Item.t) : option Item.t :=
  match items with
  | [] => None
  | it :: rest =>
      match latest u rest with
      | Some x => Some x
      | None =>
          match Item.url it with
          | Some u' => if String.eqb u' u then Some it else None
          | None => None
          end
      end
  end.

(** A row with every column but [id] and [url] taken from an item. *)
Definition overwrite_with (it : Item.t) (r : row) : row :=
  match Item.title it, Item.last_seen it with
  | Some ti, Some ls => do_update_set r ti ls it
  | _, _ => r
  end.

(** ** What the database may answer *)

(** The two columns [ORDER BY] sorts on, and the comparison of the three
    keys made of them. *)
Definition sort_key (r : row) : option date * date :=
  (cfp_deadline r, last_seen r).

Definition key_compare (k k' : option date * date) : comparison :=
  match (match fst k with None => 1 | Some _ => 0 end)
        ?= (match fst k' with None => 1 | Some _ => 0 end) with
  | Eq =>
      match asc_compare (fst k) (fst k') with
      | Eq => date_compare (snd k') (snd k)
      | c => c
      end
  | c => c
  end.

Definition key_leb (k k' : option date * date) : bool :=
  match key_compare k k' with Gt => false | _ => true end.

(** SQL fixes the order of a result by its keys and leaves the order of
    rows whose keys tie to the database.  [may_answer] holds of every list
    the statement of [fetch_opportunities] may return: the rows that pass
    the [WHERE] clause, in some order that agrees with [ORDER BY], cut by
    [LIMIT]. *)
Definition may_answer
  (q tag : option string) (remote : option bool) (limit : Z) (t : table)
  (res : list row) : Prop :=
  exists l,
    Permutation l (filter (selected q tag remote) (rows t))
    /\ Sorted (fun a b => order_leb a b = true) l
    /\ sql_limit limit l = Ok res.


(** * Proofs *)

(** ** The upsert statement *)

Lemma on_conflict_None (u : string) (f : row -> row) (rs : list row) :
  on_conflict u f rs = None <-> ~ In u (map url rs).
Proof.
  induction rs as [|r rs IH]; simpl.
  - tauto.
  - destruct (String.eqb_spec (url r) u) as [E|E].
    + split; [discriminate | intros H; exfalso; apply H; now left].
    + destruct (on_conflict u f rs); simpl.
      * split; [discriminate | intros H; exfalso].
        destruct IH as [_ IH].
        assert (In u (map url rs) -> False) as H0 by tauto.
        specialize (IH H0). discriminate.
      * split; [intros _ | reflexivity].
        intros [H|H]; [contradiction | now apply IH].
Qed.

Lemma on_conflict_Some (u : string) (f : row -> row) (rs rs' : list row) :
  on_conflict u f rs = Some rs' ->
  exists l1 r l2,
    rs = l1 ++ r :: l2 /\ rs' = l1 ++ f r :: l2
    /\ url r = u /\ ~ In u (map url l1).
Proof.
  revert rs'. induction rs as [|r rs IH]; simpl; intros rs' H.
  - discriminate.
  - destruct (String.eqb_spec (url r) u) as [E|E].
    + injection H as <-. exists [], r, rs. simpl. tauto.
    + destruct (on_conflict u f rs) as [rs0|]; simpl in H; [|discriminate].
      injection H as <-.
      destruct (IH rs0 eq_refl) as (l1 & r0 & l2 & -> & -> & Hu & Hn).
      exists (r :: l1), r0, l2. simpl. repeat split; auto.
      intros [H|H]; auto.
Qed.

Lemma on_conflict_map {A : Type} (g : row -> A) (u : string)
  (f : row -> row) (rs rs' : list row) :
  (forall r, g (f r) = g r) ->
  on_conflict u f rs = Some rs' -> map g rs' = map g rs.
Proof.
  intros Hg H.
  destruct (on_conflict_Some _ _ _ _ H) as (l1 & r & l2 & -> & -> & _ & _).
  rewrite !map_app. simpl. now rewrite Hg.
Qed.

Lemma on_conflict_length (u : string) (f : row -> row) (rs rs' : list row) :
  on_conflict u f rs = Some rs' -> List.length rs' = List.length rs.
Proof.
  intros H.
  rewrite <- (length_map (fun _ => tt) rs'), <- (length_map (fun _ => tt) rs).
  f_equal. now apply on_conflict_map with (u := u) (f := f).
Qed.

Lemma existsb_id_false (n : Z) (rs : list row) :
  existsb (fun r => id r =? n) rs = false <-> ~ In n (map id rs).
Proof.
  split.
  - intros H Hin. apply in_map_iff in Hin. destruct Hin as (r & <- & Hr).
    assert (existsb (fun r0 => id r0 =? id r) rs = true) as E.
    { apply existsb_exists. exists r. split; auto. apply Z.eqb_refl. }
    congruence.
  - intros H. destruct (existsb _ rs) eqn:E; auto.
    apply existsb_exists in E. destruct E as (r & Hr & E).
    apply Z.eqb_eq in E. exfalso. apply H. apply in_map_iff. eauto.
Qed.

Lemma existsb_url (u : string) (rs : list row) :
  existsb (fun r => String.eqb (url r) u) rs = true <-> In u (map url rs).
Proof.
  rewrite existsb_exists, in_map_iff.
  split; intros (r & H1 & H2).
  - apply String.eqb_eq in H2. eauto.
  - exists r. split; auto. now apply String.eqb_eq.
Qed.

Lemma UPSERT_SQL_case (it : Item.t) (t : table) :
  upsert_case it t (UPSERT_SQL it t).
Proof.
  unfold UPSERT_SQL.
  destruct (Z.ltb_spec max_serial (id_seq t)) as [Hs|Hs].
  { now constructor. }
  destruct (Item.title it) as [ti|] eqn:Eti;
    [|constructor; auto].
  destruct (Item.url it) as [u|] eqn:Eu;
    [|constructor; auto].
  destruct (Item.last_seen it) as [ls|] eqn:Els;
    [|constructor; auto].
  destruct (on_conflict u _ (rows t)) as [rs'|] eqn:Ec.
  { eapply case_update; eauto. }
  apply on_conflict_None in Ec.
  destruct (existsb _ (rows t)) eqn:Ex.
  - eapply case_id_taken; eauto.
    apply existsb_exists in Ex. destruct Ex as (r & Hr & E).
    apply Z.eqb_eq in E. apply in_map_iff. eauto.
  - eapply case_insert; eauto. now apply existsb_id_false.
Qed.

Lemma NoDup_snoc {A : Type} (l : list A) (a : A) :
  NoDup l -> ~ In a l -> NoDup (l ++ [a]).
Proof.
  intros Hl Ha.
  apply (Permutation_NoDup (l := a :: l)).
  - apply Permutation_cons_append.
  - now constructor.
Qed.

Lemma well_formed_empty : well_formed empty_table.
Proof.
  split; simpl; constructor.
Qed.

Lemma UPSERT_SQL_well_formed (it : Item.t) (t : table) :
  well_formed t -> well_formed (table_of (UPSERT_SQL it t)).
Proof.
  intros [Hu Hi Hs].
  assert (Forall (fun r => id r < id_seq t + 1) (rows t)) as Hs'.
  { eapply Forall_impl; [|exact Hs]. simpl. intros; lia. }
  destruct (UPSERT_SQL_case it t); simpl; try (split; simpl; assumption).
  - (* update *)
    assert (map url rs' = map url (rows t)) as Eu
      by (eapply on_conflict_map; [|eassumption]; reflexivity).
    assert (map id rs' = map id (rows t)) as Ei
      by (eapply on_conflict_map; [|eassumption]; reflexivity).
    split; simpl; try congruence.
    apply Forall_forall. intros r Hr.
    apply (in_map id) in Hr. rewrite Ei in Hr.
    apply in_map_iff in Hr. destruct Hr as (r0 & E0 & Hr0).
    rewrite Forall_forall in Hs'. specialize (Hs' r0 Hr0). lia.
  - (* insert *)
    split; simpl.
    + rewrite map_app. simpl. now apply NoDup_snoc.
    + rewrite map_app. simpl. now apply NoDup_snoc.
    + apply Forall_app. split; auto.
      constructor; [simpl; lia | constructor].
Qed.

Lemma upserts_app (xs ys : list Item.t) (t : table) :
  upserts (xs ++ ys) t = upserts ys (upserts xs t).
Proof.
  revert t. induction xs as [|x xs IH]; simpl; intros t; auto.
Qed.

Lemma upserts_well_formed (items : list Item.t) (t : table) :
  well_formed t -> well_formed (upserts items t).
Proof.
  revert t. induction items as [|it items IH]; simpl; intros t H; auto.
  apply IH. now apply UPSERT_SQL_well_formed.
Qed.

Lemma UPSERT_SQL_update_length (it : Item.t) (t : table) :
  is_update it t = true ->
  List.length (rows (table_of (UPSERT_SQL it t))) = List.length (rows t).
Proof.
  unfold is_update. intros H.
  destruct (UPSERT_SQL_case it t); simpl; auto.
  - eapply on_conflict_length; eassumption.
  - exfalso.
    match goal with Hu : Item.url it = Some _ |- _ => rewrite Hu in H end.
    apply existsb_url in H. contradiction.
Qed.

Lemma url_determines_row (l : list row) (a b : row) :
  NoDup (map url l) -> In a l -> In b l -> url a = url b -> a = b.
Proof.
  induction l as [|x l IH]; simpl; intros Hn Ha Hb E.
  - contradiction.
  - inversion Hn as [|? ? Hx Hl]; subst.
    destruct Ha as [->|Ha], Hb as [->|Hb]; auto.
    + exfalso. apply Hx. rewrite E. now apply in_map.
    + exfalso. apply Hx. rewrite <- E. now apply in_map.
Qed.

Lemma with_url_none (u : string) (l : list row) :
  ~ In u (map url l) -> with_url u l = [].
Proof.
  induction l as [|x l IH]; simpl; intros H; auto.
  destruct (String.eqb_spec (url x) u) as [E|E].
  - exfalso. apply H. now left.
  - apply IH. intros Hin. apply H. now right.
Qed.

Lemma with_url_unique (l1 l2 : list row) (r : row) :
  NoDup (map url (l1 ++ r :: l2)) ->
  with_url (url r) (l1 ++ r :: l2) = [r].
Proof.
  intros Hn. rewrite map_app in Hn. simpl in Hn.
  pose proof (NoDup_remove_2 _ _ _ Hn) as Hout.
  unfold with_url. rewrite filter_app. simpl.
  rewrite String.eqb_refl.
  fold (with_url (url r) l1). fold (with_url (url r) l2).
  rewrite !with_url_none; auto.
  - intros H. apply Hout. apply in_or_app. now right.
  - intros H. apply Hout. apply in_or_app. now left.
Qed.

Lemma map_at_url_other (u : string) (f : row -> row) (l : list row) :
  ~ In u (map url l) ->
  map (fun x => if String.eqb (url x) u then f x else x) l = l.
Proof.
  induction l as [|x l IH]; simpl; intros H; auto.
  destruct (String.eqb_spec (url x) u) as [E|E].
  - exfalso. apply H. now left.
  - f_equal. apply IH. intros Hin. apply H. now right.
Qed.

Lemma map_at_url_unique (f : row -> row) (l1 l2 : list row) (r : row) :
  NoDup (map url (l1 ++ r :: l2)) ->
  map (fun x => if String.eqb (url x) (url r) then f x else x)
      (l1 ++ r :: l2)
  = l1 ++ f r :: l2.
Proof.
  intros Hn. rewrite map_app in Hn. simpl in Hn.
  pose proof (NoDup_remove_2 _ _ _ Hn) as Hout.
  rewrite map_app. simpl. rewrite String.eqb_refl.
  rewrite !map_at_url_other; auto.
  - intros H. apply Hout. apply in_or_app. now right.
  - intros H. apply Hout. apply in_or_app. now left.
Qed.

(** On a well-formed table with a sequence value to spare, an item whose
    required columns are present is always accepted: it replaces the row it
    conflicts with where that row stands, or is added after the last row. *)
Lemma UPSERT_SQL_Done (it : Item.t) (t : table) (ti u : string) (ls : date) :
  well_formed t -> id_seq t <= max_serial ->
  Item.title it = Some ti -> Item.url it = Some u ->
  Item.last_seen it = Some ls ->
  exists l1 l2 n,
    UPSERT_SQL it t
    = Done {| rows := l1 ++ excluded n ti u ls it :: l2;
              id_seq := id_seq t + 1 |}
    /\ ((exists r, rows t = l1 ++ r :: l2 /\ url r = u /\ n = id r)
        \/ (rows t = l1 /\ l2 = [] /\ ~ In u (map url l1) /\ n = id_seq t
            /\ ~ In n (map id l1))).
Proof.
  intros Hwf Hs Eti Eu Els.
  destruct (UPSERT_SQL_case it t) as
    [Hx | _ Hnull | ti' u' ls' rs' _ Eti' Eu' Els' Hc
     | ti' u' ls' _ Eti' Eu' Els' _ Hid
     | ti' u' ls' _ Eti' Eu' Els' Hnew Hid ].
  - lia.
  - destruct Hnull as [H|[H|H]]; congruence.
  - assert (ti' = ti) by congruence. assert (u' = u) by congruence.
    assert (ls' = ls) by congruence. subst.
    destruct (on_conflict_Some _ _ _ _ Hc) as (l1 & r & l2 & E & -> & Hu & _).
    exists l1, l2, (id r). split.
    + unfold do_update_set, excluded. now rewrite Hu.
    + left. exists r. auto.
  - exfalso. apply in_map_iff in Hid. destruct Hid as (r & E & Hr).
    pose proof (wf_seq _ Hwf) as Hlt. rewrite Forall_forall in Hlt.
    specialize (Hlt r Hr). lia.
  - assert (ti' = ti) by congruence. assert (u' = u) by congruence.
    assert (ls' = ls) by congruence. subst.
    exists (rows t), [], (id_seq t). split; auto.
    right. auto.
Qed.

(** An accepted item whose url is stored replaces the row under that url
    where it stands: the id stays, the other columns are the item's. *)
Lemma UPSERT_SQL_in_place
  (it : Item.t) (t : table) (ti u : string) (ls : date) (r : row) :
  well_formed t -> id_seq t <= max_serial ->
  Item.title it = Some ti -> Item.url it = Some u ->
  Item.last_seen it = Some ls ->
  In r (rows t) -> url r = u ->
  exists l1 l2,
    rows t = l1 ++ r :: l2
    /\ rows (table_of (UPSERT_SQL it t))
       = l1 ++ excluded (id r) ti u ls it :: l2.
Proof.
  intros Hwf Hs Eti Eu Els Hr Hu.
  destruct (UPSERT_SQL_Done it t ti u ls Hwf Hs Eti Eu Els)
    as (l1 & l2 & n & E & [(r0 & Er & Hu0 & Hn) | (Er & _ & Hnew & _)]).
  - assert (r0 = r) as ->.
    { apply (url_determines_row (rows t)); try congruence.
      - apply (wf_url _ Hwf).
      - rewrite Er. apply in_elt. }
    exists l1, l2. split; [exact Er|]. rewrite E. simpl. now subst n.
  - exfalso. apply Hnew. rewrite <- Er, <- Hu. now apply in_map.
Qed.

Lemma upserts_id_seq_bound (items : list Item.t) :
  id_seq (upserts items empty_table) <= 1 + Z.of_nat (List.length items).
Proof.
  assert (forall t,
            id_seq (upserts items t)
            <= id_seq t + Z.of_nat (List.length items)) as G.
  { induction items as [|x items IH]; intros t.
    - simpl. lia.
    - simpl upserts. rewrite length_cons, Nat2Z.inj_succ.
      specialize (IH (table_of (UPSERT_SQL x t))).
      assert (id_seq (table_of (UPSERT_SQL x t)) <= id_seq t + 1)
        by (destruct (UPSERT_SQL_case x t); simpl; lia).
      lia. }
  apply (G empty_table).
Qed.

(** C1. Whatever upserts are run from the empty table, the table never
    holds two rows with the same url.  An upsert whose url is already
    stored leaves the number of rows as it was; and when the item is one
    the table accepts, the row stored under its url is updated where it
    stands: it keeps its id and its place, takes the item's values in its
    other columns, and is afterwards the one row under that url. *)
Theorem C1_one_row_per_url
  (items : list Item.t) (it : Item.t) (ti u : string) (ls : date) :
  NoDup (map url (rows (upserts items empty_table)))
  /\ (is_update it (upserts items empty_table) = true ->
      List.length (rows (upserts (items ++ [it]) empty_table))
      = List.length (rows (upserts items empty_table)))
  /\ (Item.title it = Some ti -> Item.url it = Some u ->
      Item.last_seen it = Some ls ->
      Z.of_nat (List.length items) < max_serial ->
      forall r,
        In r (rows (upserts items empty_table)) -> url r = u ->
        exists l1 l2,
          rows (upserts items empty_table) = l1 ++ r :: l2
          /\ rows (upserts (items ++ [it]) empty_table)
             = l1 ++ {| id := id r;
                        title := ti;
                        organizer := Item.organizer it;
                        url := u;
                        location := Item.location it;
                        is_remote := Item.is_remote it;
                        topic_tags := Item.topic_tags it;
                        cfp_deadline := Item.cfp_deadline it;
                        event_date := Item.event_date it;
                        source := Item.source it;
                        last_seen := ls |} :: l2
          /\ with_url u (rows (upserts (items ++ [it]) empty_table))
             = [ {| id := id r;
                    title := ti;
                    organizer := Item.organizer it;
                    url := u;
                    location := Item.location it;
                    is_remote := Item.is_remote it;
                    topic_tags := Item.topic_tags it;
                    cfp_deadline := Item.cfp_deadline it;
                    event_date := Item.event_date it;
                    source := Item.source it;
                    last_seen := ls |} ]).
Proof.
  pose proof (upserts_well_formed items empty_table well_formed_empty)
    as Hwf.
  split; [apply (wf_url _ Hwf)|]. split.
  - intros H. rewrite upserts_app. simpl.
    now apply UPSERT_SQL_update_length.
  - intros Eti Eu Els Hlen r Hr Hu.
    pose proof (upserts_id_seq_bound items) as Hb.
    destruct (UPSERT_SQL_in_place it _ ti u ls r Hwf ltac:(lia)
                Eti Eu Els Hr Hu) as (l1 & l2 & E1 & E2).
    exists l1, l2. rewrite upserts_app. simpl upserts.
    split; [exact E1|]. split; [exact E2|].
    pose proof (UPSERT_SQL_well_formed it _ Hwf) as Hwf'.
    apply wf_url in Hwf'. rewrite E2 in *.
    apply (with_url_unique l1 l2 (excluded (id r) ti u ls it) Hwf').
Qed.

Lemma C1_one_row_per_url_witness :
  NoDup (map url (rows (upserts (sample day1) empty_table)))
  /\ List.length
       (rows (upserts (sample day1 ++ [item_x "t" day2]
                       ++ [item_x "second" day2]) empty_table))
     = List.length
         (rows (upserts (sample day1 ++ [item_x "t" day2]) empty_table))
  /\ map title
       (with_url "https://example.com/x"
          (rows (upserts (sample day1 ++ [item_x "t" day2]
                          ++ [item_x "second" day2]) empty_table)))
     = ["second"]%string
  /\ map id
       (with_url "https://example.com/x"
          (rows (upserts (sample day1 ++ [item_x "t" day2]
                          ++ [item_x "second" day2]) empty_table)))
     = map id
         (with_url "https://example.com/x"
            (rows (upserts (sample day1 ++ [item_x "t" day2])
                     empty_table))).
Proof.
  split;
    [exact (proj1 (C1_one_row_per_url (sample day1) (item_x "t" day2)
                     "t" "https://example.com/x" day2))|].
  destruct (C1_one_row_per_url (sample day1 ++ [item_x "t" day2])
              (item_x "second" day2)
              "second" "https://example.com/x" day2) as (_ & H2 & H3).
  rewrite <- !app_assoc in *.
  split; [apply H2; vm_compute; reflexivity|].
  destruct (H3 eq_refl eq_refl eq_refl ltac:(vm_compute; reflexivity)
              (nth 3 (rows (upserts (sample day1 ++ [item_x "t" day2])
                              empty_table)) no_row)
              ltac:(vm_compute; do 3 right; left; reflexivity) eq_refl)
    as (l1 & l2 & _ & _ & E).
  rewrite E. split; vm_compute; reflexivity.
Defined.

(** C2. An upsert whose url is already stored keeps the id (and the place)
    of the stored row and overwrites each of its other columns with the
    value supplied; an upsert whose url is not stored adds a row with an id
    that no stored row has. *)
Theorem C2_upsert_overwrites_or_inserts
  (it : Item.t) (t : table) (ti u : string) (ls : date) :
  well_formed t -> id_seq t <= max_serial ->
  Item.title it = Some ti -> Item.url it = Some u ->
  Item.last_seen it = Some ls ->
  (forall r, In r (rows t) -> url r = u ->
     exists l1 l2,
       rows t = l1 ++ r :: l2
       /\ UPSERT_SQL it t
          = Done {| rows :=
                      l1 ++ {| id := id r;
                               title := ti;
                               organizer := Item.organizer it;
                               url := u;
                               location := Item.location it;
                               is_remote := Item.is_remote it;
                               topic_tags := Item.topic_tags it;
                               cfp_deadline := Item.cfp_deadline it;
                               event_date := Item.event_date it;
                               source := Item.source it;
                               last_seen := ls |} :: l2;
                    id_seq := id_seq t + 1 |})
  /\ (~ In u (map url (rows t)) ->
      exists n,
        ~ In n (map id (rows t))
        /\ UPSERT_SQL it t
           = Done {| rows :=
                       rows t ++ [ {| id := n;
                                      title := ti;
                                      organizer := Item.organizer it;
                                      url := u;
                                      location := Item.location it;
                                      is_remote := Item.is_remote it;
                                      topic_tags := Item.topic_tags it;
                                      cfp_deadline := Item.cfp_deadline it;
                                      event_date := Item.event_date it;
                                      source := Item.source it;
                                      last_seen := ls |} ];
                     id_seq := id_seq t + 1 |}).
Proof.
  intros Hwf Hs Eti Eu Els.
  destruct (UPSERT_SQL_Done it t ti u ls Hwf Hs Eti Eu Els)
    as (l1 & l2 & n & E & [(r0 & Er & Hu0 & Hn) | (Er & E2 & Hnew & Hn & Hid)]).
  - split.
    + intros r Hr Hu.
      assert (r0 = r) as ->.
      { apply (url_determines_row (rows t)); try congruence.
        - apply (wf_url _ Hwf).
        - rewrite Er. apply in_elt. }
      exists l1, l2. split; auto. rewrite E. subst n. reflexivity.
    + intros Hnew. exfalso. apply Hnew. rewrite Er, <- Hu0.
      apply in_map, in_elt.
  - split.
    + intros r Hr Hu. exfalso. apply Hnew. rewrite <- Er, <- Hu.
      now apply in_map.
    + intros _. exists n. split.
      * now rewrite Er.
      * rewrite E, Er. subst l2. reflexivity.
Qed.

Lemma well_formed_table_x : well_formed table_x.
Proof.
  apply upserts_well_formed, well_formed_empty.
Qed.

Lemma C2_upsert_overwrites_or_inserts_witness :
  exists r',
    rows (table_of (UPSERT_SQL (item_x "second" day2) table_x)) = [r']
    /\ id r' = 1 /\ title r' = "second" /\ last_seen r' = day2.
Proof.
  destruct (C2_upsert_overwrites_or_inserts
              (item_x "second" day2) table_x
              "second" "https://example.com/x" day2
              well_formed_table_x ltac:(vm_compute; discriminate)
              eq_refl eq_refl eq_refl) as [H _].
  destruct (H (hd no_row (rows table_x))
              (or_introl eq_refl) eq_refl) as (l1 & l2 & E1 & E2).
  destruct l1 as [|x l1].
  - simpl in E1. injection E1 as <-. rewrite E2. simpl.
    eexists. split; [reflexivity|]. repeat split.
  - exfalso. apply (f_equal (@List.length row)) in E1.
    rewrite length_app in E1. simpl in E1. lia.
Defined.

(** C7. Presenting the same item a second time, with only the day it was
    seen changed, leaves one row under its url, the row the first
    presentation left, with the same id and only [last_seen] renewed; no
    other row changes. *)
Theorem C7_reingestion_idempotent
  (it : Item.t) (t : table) (ti u : string) (ls ls' : date) :
  well_formed t -> id_seq t + 1 <= max_serial ->
  Item.title it = Some ti -> Item.url it = Some u ->
  Item.last_seen it = Some ls ->
  exists t1 t2 r1 r2,
    UPSERT_SQL it t = Done t1
    /\ UPSERT_SQL (seen_on ls' it) t1 = Done t2
    /\ with_url u (rows t1) = [r1]
    /\ with_url u (rows t2) = [r2]
    /\ id r2 = id r1
    /\ r2 = row_seen_on ls' r1
    /\ rows t2
       = map (fun x => if String.eqb (url x) u then row_seen_on ls' x else x)
             (rows t1).
Proof.
  intros Hwf Hs Eti Eu Els.
  destruct (UPSERT_SQL_Done it t ti u ls Hwf ltac:(lia) Eti Eu Els)
    as (l1 & l2 & n & E & _).
  pose proof (UPSERT_SQL_well_formed it t Hwf) as Hwf1.
  rewrite E in Hwf1. simpl in Hwf1.
  set (t1 := {| rows := l1 ++ excluded n ti u ls it :: l2;
                id_seq := id_seq t + 1 |}) in *.
  destruct (UPSERT_SQL_Done (seen_on ls' it) t1 ti u ls' Hwf1
              ltac:(simpl; lia) Eti Eu eq_refl)
    as (k1 & k2 & m & E' & [(r & Er & Hu & Hm) | (Er & _ & Hnew & _)]).
  - assert (r = excluded n ti u ls it) as Hr.
    { apply (url_determines_row (rows t1)); auto.
      - apply (wf_url _ Hwf1).
      - rewrite Er. apply in_elt.
      - simpl. apply in_elt. }
    pose proof (UPSERT_SQL_well_formed (seen_on ls' it) t1 Hwf1) as Hwf2.
    rewrite E' in Hwf2. simpl in Hwf2.
    pose proof (wf_url _ Hwf1) as N1. pose proof (wf_url _ Hwf2) as N2.
    rewrite Er in N1. simpl in N2.
    exists t1, {| rows := k1 ++ excluded m ti u ls' (seen_on ls' it) :: k2;
                  id_seq := id_seq t1 + 1 |},
      r, (excluded m ti u ls' (seen_on ls' it)).
    split; [exact E|]. split; [exact E'|].
    split; [rewrite Er, <- Hu; now apply with_url_unique|].
    split; [simpl rows; apply (with_url_unique k1 k2 _ N2)|].
    split; [simpl; congruence|].
    assert (excluded m ti u ls' (seen_on ls' it) = row_seen_on ls' r) as Hsame
      by (rewrite Hm, Hr; reflexivity).
    split; [exact Hsame|].
    simpl rows at 1. rewrite Er, Hsame, <- Hu.
    symmetry. now apply map_at_url_unique.
  - exfalso. apply Hnew. rewrite <- Er. simpl. rewrite map_app. simpl.
    apply in_elt.
Qed.

Lemma C7_reingestion_idempotent_witness :
  exists t1 t2 r1 r2,
    UPSERT_SQL (item_x "first" day1) empty_table = Done t1
    /\ UPSERT_SQL (seen_on day2 (item_x "first" day1)) t1 = Done t2
    /\ with_url "https://example.com/x" (rows t1) = [r1]
    /\ with_url "https://example.com/x" (rows t2) = [r2]
    /\ id r2 = id r1
    /\ r2 = row_seen_on day2 r1
    /\ rows t2
       = map (fun x =>
                if String.eqb (url x) "https://example.com/x"
                then row_seen_on day2 x else x)
             (rows t1).
Proof.
  apply (C7_reingestion_idempotent (item_x "first" day1) empty_table
           "first" "https://example.com/x" day1 day2).
  - exact well_formed_empty.
  - vm_compute. discriminate.
  - reflexivity.
  - reflexivity.
  - reflexivity.
Defined.

(** ** The order of a result *)

Lemma date_compare_antisym (a b : date) :
  date_compare b a = CompOpp (date_compare a b).
Proof.
  unfold date_compare.
  rewrite (Z.compare_antisym (year a) (year b)).
  rewrite (Z.compare_antisym (month a) (month b)).
  rewrite (Z.compare_antisym (day a) (day b)).
  destruct (year a ?= year b); simpl; auto.
  destruct (month a ?= month b); simpl; auto.
Qed.

Lemma date_leb_refl (a : date) : date_leb a a = true.
Proof.
  unfold date_leb, date_compare. now rewrite !Z.compare_refl.
Qed.

Lemma asc_compare_antisym (a b : option date) :
  asc_compare b a = CompOpp (asc_compare a b).
Proof.
  destruct a, b; simpl; auto. apply date_compare_antisym.
Qed.

Lemma order_compare_antisym (a b : row) :
  order_compare b a = CompOpp (order_compare a b).
Proof.
  unfold order_compare.
  rewrite (Z.compare_antisym (null_case a) (null_case b)).
  rewrite (asc_compare_antisym (cfp_deadline a) (cfp_deadline b)).
  rewrite (date_compare_antisym (last_seen b) (last_seen a)).
  destruct (null_case a ?= null_case b); simpl; auto.
  destruct (asc_compare (cfp_deadline a) (cfp_deadline b)); simpl; auto.
Qed.

Lemma order_leb_total (a b : row) :
  order_leb a b = false -> order_leb b a = true.
Proof.
  unfold order_leb. rewrite (order_compare_antisym a b).
  destruct (order_compare a b); simpl; auto; discriminate.
Qed.

Lemma order_leb_in_order (a b : row) :
  order_leb a b = true -> in_order a b.
Proof.
  unfold order_leb, order_compare, null_case, in_order, date_leb.
  destruct (cfp_deadline a) as [x|], (cfp_deadline b) as [y|]; simpl.
  - intros H. left. exists x, y. repeat split.
    destruct (date_compare x y); auto.
  - intros _. right. left. split; congruence.
  - discriminate.
  - intros H. right. right. repeat split.
    destruct (date_compare (last_seen b) (last_seen a)); auto.
Qed.

Lemma insert_row_HdRel (x r : row) (l : list row) :
  HdRel (fun a b => order_leb a b = true) x l ->
  order_leb x r = true ->
  HdRel (fun a b => order_leb a b = true) x (insert_row r l).
Proof.
  intros H Hxr. destruct l as [|y l]; simpl.
  - now constructor.
  - destruct (order_leb r y); constructor; auto.
    now inversion H.
Qed.

Lemma insert_row_sorted (r : row) (l : list row) :
  Sorted (fun a b => order_leb a b = true) l ->
  Sorted (fun a b => order_leb a b = true) (insert_row r l).
Proof.
  induction l as [|x l IH]; simpl; intros H.
  - repeat constructor.
  - destruct (order_leb r x) eqn:E.
    + constructor; auto.
    + inversion H as [|? ? Hs Hh]; subst.
      constructor; auto.
      apply insert_row_HdRel; auto. now apply order_leb_total.
Qed.

Lemma order_by_sorted (l : list row) :
  Sorted (fun a b => order_leb a b = true) (order_by l).
Proof.
  induction l as [|r l IH]; simpl.
  - constructor.
  - now apply insert_row_sorted.
Qed.

Lemma insert_row_perm (r : row) (l : list row) :
  Permutation (r :: l) (insert_row r l).
Proof.
  induction l as [|x l IH]; simpl; auto.
  destruct (order_leb r x); auto.
  rewrite perm_swap. now constructor.
Qed.

Lemma order_by_perm (l : list row) : Permutation l (order_by l).
Proof.
  induction l as [|r l IH]; simpl; auto.
  rewrite <- insert_row_perm. now constructor.
Qed.

Lemma Sorted_firstn {A : Type} (R : A -> A -> Prop) (n : nat) (l : list A) :
  Sorted R l -> Sorted R (firstn n l).
Proof.
  revert l. induction n as [|n IH]; intros l H; simpl.
  - constructor.
  - destruct l as [|x l]; [constructor|].
    inversion H as [|? ? Hs Hh]; subst.
    constructor; auto.
    destruct n as [|n]; [constructor|].
    destruct l as [|y l]; simpl; constructor. now inversion Hh.
Qed.

Lemma Sorted_adjacent {A : Type} (R : A -> A -> Prop) (l1 l2 : list A)
  (a b : A) :
  Sorted R (l1 ++ a :: b :: l2) -> R a b.
Proof.
  induction l1 as [|x l1 IH]; simpl; intros H.
  - inversion H as [|? ? _ Hh]; subst. now inversion Hh.
  - inversion H; subst. auto.
Qed.

Lemma sql_limit_Ok (limit : Z) (l res : list row) :
  sql_limit limit l = Ok res ->
  0 <= limit <= max_bigint /\ res = firstn (Z.to_nat limit) l.
Proof.
  unfold sql_limit.
  destruct (Z.ltb_spec limit (- max_bigint - 1)) as [L1|L1]; simpl;
    [discriminate|].
  destruct (Z.ltb_spec max_bigint limit) as [L2|L2]; simpl; [discriminate|].
  destruct (Z.ltb_spec limit 0) as [L3|L3]; [discriminate|].
  intros H. injection H as <-. split; [lia | reflexivity].
Qed.

(** C3. In every result of the query, whatever the filters and the limit,
    each record and the one after it are in order: both have a deadline and
    the first is not later; or the first has one and the second has none;
    or neither has one and the first was seen no earlier than the second. *)
Theorem C3_result_in_order
  (q tag : option string) (remote : option bool) (limit : Z) (t : table)
  (res : list row) (a b : row) :
  fetch_opportunities q tag remote limit t = Ok res ->
  adjacent a b res ->
  in_order a b.
Proof.
  unfold fetch_opportunities. intros H (l1 & l2 & E).
  apply sql_limit_Ok in H. destruct H as [_ ->].
  apply order_leb_in_order.
  apply (Sorted_adjacent (fun a b => order_leb a b = true) l1 l2).
  rewrite <- E. apply Sorted_firstn, order_by_sorted.
Qed.

Lemma C3_result_in_order_witness :
  map url (rows_of (fetch_opportunities None None None 50 table_xyz))
  = ["Z"; "X"; "Y"]%string
  /\ in_order
       (nth 0 (rows_of (fetch_opportunities None None None 50 table_xyz))
            no_row)
       (nth 1 (rows_of (fetch_opportunities None None None 50 table_xyz))
            no_row).
Proof.
  split; [vm_compute; reflexivity|].
  apply (C3_result_in_order None None None 50 table_xyz
           (rows_of (fetch_opportunities None None None 50 table_xyz))).
  - vm_compute. reflexivity.
  - exists [], (skipn 2 (rows_of
                           (fetch_opportunities None None None 50 table_xyz))).
    vm_compute. reflexivity.
Defined.

(** ** Patterns and filters *)




















(** ** The limit *)






(** ** The home page *)

(** C10. The home page reads [remote] as follows: [yes] asks for remote
    records, [no] for records that are not remote, and anything else (no
    value, the empty string, any other text) asks for neither, so that the
    selection does not look at [is_remote]. *)
Theorem C10_home_remote_parameter
  (q tag remote : option string) (t : table) :
  home_results q tag remote t
  = fetch_opportunities q tag (remote_bool remote) 50 t
  /\ remote_bool (Some "yes") = Some true
  /\ remote_bool (Some "no") = Some false
  /\ (remote <> Some "yes" -> remote <> Some "no" ->
      remote_bool remote = None
      /\ home_results q tag remote t = fetch_opportunities q tag None 50 t
      /\ forall v x,
           selected q tag (remote_bool remote) (set_is_remote v x)
           = selected q tag (remote_bool remote) x).
Proof.
  split; [reflexivity|]. split; [reflexivity|]. split; [reflexivity|].
  intros Hy Hn.
  assert (remote_bool remote = None) as E.
  { destruct remote as [s|]; simpl; auto.
    destruct (String.eqb_spec s "yes") as [->|_]; [now elim Hy|].
    destruct (String.eqb_spec s "no") as [->|_]; [now elim Hn|].
    reflexivity. }
  split; [exact E|]. unfold home_results. rewrite E.
  split; [reflexivity|].
  intros v x. unfold selected, where_list.
  destruct q as [[|c q]|], tag as [[|c' tag]|]; reflexivity.
Qed.

Lemma C10_home_remote_parameter_witness :
  remote_bool (Some "true") = None
  /\ map is_remote (rows_of (home_results None None (Some "true") table_xyz))
     = [Some false; Some true; Some false]
  /\ map is_remote
       (rows_of (home_results None None (Some EmptyString) table_xyz))
     = [Some false; Some true; Some false]
  /\ map is_remote (rows_of (home_results None None None table_xyz))
     = [Some false; Some true; Some false].
Proof.
  destruct (C10_home_remote_parameter None None (Some "true") table_xyz)
    as (_ & _ & _ & H).
  destruct (H ltac:(discriminate) ltac:(discriminate)) as (E & Hres & _).
  split; [exact E|].
  split; [rewrite Hres; vm_compute; reflexivity|].
  split; vm_compute; reflexivity.
Defined.

(** ** The ingestion run *)

Lemma UPSERT_SQL_urls_persist (it : Item.t) (t : table) (u : string) :
  In u (map url (rows t)) ->
  In u (map url (rows (table_of (UPSERT_SQL it t)))).
Proof.
  intros H. destruct (UPSERT_SQL_case it t); simpl; auto.
  - assert (map url rs' = map url (rows t)) as E
      by (eapply on_conflict_map; [|eassumption]; reflexivity).
    now rewrite E.
  - rewrite map_app. apply in_or_app. now left.
Qed.

Lemma upserts_urls_persist (items : list Item.t) (t : table) (u : string) :
  In u (map url (rows t)) -> In u (map url (rows (upserts items t))).
Proof.
  revert t. induction items as [|it items IH]; simpl; intros t H; auto.
  now apply IH, UPSERT_SQL_urls_persist.
Qed.

Lemma required_present_inv (it : Item.t) :
  required_present it = true ->
  exists ti u ls,
    Item.title it = Some ti /\ Item.url it = Some u
    /\ Item.last_seen it = Some ls.
Proof.
  unfold required_present.
  destruct (Item.title it) as [ti|]; [|discriminate].
  destruct (Item.url it) as [u|]; [|discriminate].
  destruct (Item.last_seen it) as [ls|]; [|discriminate].
  intros _. exists ti, u, ls. auto.
Qed.

(** A batch whose items all fill the required columns goes through, on a
    well-formed table with enough sequence values left. *)
Lemma execute_each_Done (items : list Item.t) (t : table) :
  well_formed t ->
  id_seq t + Z.of_nat (List.length items) <= max_serial + 1 ->
  forallb required_present items = true ->
  execute_each items t = Done (upserts items t)
  /\ id_seq (upserts items t) = id_seq t + Z.of_nat (List.length items).
Proof.
  revert t. induction items as [|it items IH]; intros t Hwf Hs Hp.
  - simpl. split; [reflexivity | lia].
  - simpl in Hp. apply andb_true_iff in Hp. destruct Hp as [Hit Hp].
    destruct (required_present_inv it Hit) as (ti & u & ls & Eti & Eu & Els).
    rewrite length_cons, Nat2Z.inj_succ in *.
    assert (id_seq t <= max_serial) as Hs0 by lia.
    destruct (UPSERT_SQL_Done it t ti u ls Hwf Hs0 Eti Eu Els)
      as (l1 & l2 & n & E & _).
    pose proof (UPSERT_SQL_well_formed it t Hwf) as Hwf1.
    simpl. rewrite E in *. simpl in Hwf1. simpl table_of.
    destruct (IH _ Hwf1) as [IH1 IH2];
      [unfold max_serial in *; simpl; lia | exact Hp |].
    split; [exact IH1|]. rewrite IH2. simpl. lia.
Qed.

(** An item without title or without url stops the batch. *)
Lemma execute_each_null (items : list Item.t) (t : table) (it : Item.t) :
  In it items ->
  Item.title it = None \/ Item.url it = None ->
  exists e t', execute_each items t = Raised e t'.
Proof.
  revert t. induction items as [|x items IH]; intros t Hin Hnull.
  - contradiction.
  - simpl. destruct (UPSERT_SQL x t) as [t1|e t1] eqn:E; [|eauto].
    destruct Hin as [->|Hin]; [|now apply IH].
    exfalso. pose proof (UPSERT_SQL_case it t) as C. rewrite E in C.
    inversion C; subst; destruct Hnull; congruence.
Qed.

Lemma stored_rollback (d : database) (t : table) :
  stored (rollback d t) = stored d.
Proof.
  destruct d; reflexivity.
Qed.

(** Every item of a batch that goes through has its url stored. *)
Lemma upserts_stores_urls (items : list Item.t) (t : table) :
  well_formed t ->
  id_seq t + Z.of_nat (List.length items) <= max_serial + 1 ->
  forallb required_present items = true ->
  forall it u,
    In it items -> Item.url it = Some u ->
    In u (map url (rows (upserts items t))).
Proof.
  revert t. induction items as [|x items IH]; intros t Hwf Hs Hp it u Hin Eu.
  - contradiction.
  - simpl in Hp. apply andb_true_iff in Hp. destruct Hp as [Hx Hp].
    destruct (required_present_inv x Hx) as (ti & u' & ls & Eti & Eu' & Els).
    rewrite length_cons, Nat2Z.inj_succ in *.
    assert (id_seq t <= max_serial) as Hs0 by lia.
    destruct (UPSERT_SQL_Done x t ti u' ls Hwf Hs0 Eti Eu' Els)
      as (l1 & l2 & n & E & _).
    pose proof (UPSERT_SQL_well_formed x t Hwf) as Hwf1.
    simpl. rewrite E in *. simpl in Hwf1. simpl table_of.
    destruct Hin as [->|Hin].
    + apply upserts_urls_persist. simpl. rewrite map_app. simpl.
      assert (u' = u) as -> by congruence. apply in_elt.
    + apply (IH _ Hwf1) with (it := it); auto.
      unfold max_serial in *. simpl. lia.
Qed.

(** C5 (as amended). The ingestion run validates nothing itself.  When an
    item of the batch has no title or no url, the run fails with a database
    error and the rows stored are those stored before: no item of the batch
    is kept, none is counted.  When every item gives the required columns a
    value, be it the empty string, the run commits and every item's url is
    stored. *)
Theorem C5_ingestion_does_not_validate (items : list Item.t) (d : database) :
  (forall it,
     In it items -> Item.title it = None \/ Item.url it = None ->
     exists e d', main_with items d = Failed d' e /\ stored d' = stored d)
  /\ (well_formed (SCHEMA_SQL d) ->
      id_seq (SCHEMA_SQL d) + Z.of_nat (List.length items) <= max_serial + 1 ->
      forallb required_present items = true ->
      exists t line,
        main_with items d = Printed (Some t) line
        /\ forall it u,
             In it items -> Item.url it = Some u -> In u (map url (rows t))).
Proof.
  split.
  - intros it Hin Hnull. unfold main_with.
    destruct (execute_each_null items (SCHEMA_SQL d) it Hin Hnull)
      as (e & t' & E).
    rewrite E. exists e, (rollback d t'). split; auto.
    apply stored_rollback.
  - intros Hwf Hs Hp. unfold main_with.
    destruct (execute_each_Done items _ Hwf Hs Hp) as [E _]. rewrite E.
    eexists. eexists. split; [reflexivity|].
    now apply upserts_stores_urls.
Qed.

Lemma C5_ingestion_does_not_validate_witness :
  (exists e d',
     main_with [item_x "first" day1; item_untitled] (Some table_xyz)
     = Failed d' e
     /\ stored d' = stored (Some table_xyz))
  /\ (exists t line,
        main_with [item_empty] None = Printed (Some t) line
        /\ In EmptyString (map url (rows t))).
Proof.
  split.
  - apply (proj1 (C5_ingestion_does_not_validate
                    [item_x "first" day1; item_untitled] (Some table_xyz))
             item_untitled).
    + right. left. reflexivity.
    + left. reflexivity.
  - destruct (proj2 (C5_ingestion_does_not_validate [item_empty] None))
      as (t & line & E & H).
    + exact well_formed_empty.
    + vm_compute. discriminate.
    + reflexivity.
    + exists t, line. split; [exact E|].
      apply (H item_empty); [left|]; reflexivity.
Defined.

(** An item with an empty title and an empty url is stored, and an item
    without title takes the valid item before it down with it: in neither
    case is the outcome that of the batch without its invalid items. *)
Lemma C5_counterexample :
  valid_item item_empty = false
  /\ valid_item item_untitled = false
  /\ stored (database_of (main_with [item_empty] None))
     <> stored (database_of
                  (main_with (filter valid_item [item_empty]) None))
  /\ stored (database_of
               (main_with [item_x "first" day1; item_untitled] None))
     <> stored (database_of
                  (main_with
                     (filter valid_item [item_x "first" day1; item_untitled])
                     None)).
Proof.
  split; [reflexivity|]. split; [reflexivity|].
  split; vm_compute; discriminate.
Qed.

Lemma counts_partition (items : list Item.t) (t : table) :
  (count_inserted items t + count_updated items t)%nat = List.length items.
Proof.
  revert t. induction items as [|it items IH]; intros t; simpl; auto.
  specialize (IH (table_of (UPSERT_SQL it t))).
  destruct (is_update it t); simpl; lia.
Qed.

Lemma execute_each_length (items : list Item.t) (t t' : table) :
  execute_each items t = Done t' ->
  List.length (rows t')
  = (List.length (rows t) + count_inserted items t)%nat.
Proof.
  revert t. induction items as [|it items IH]; intros t H; simpl in *.
  - injection H as <-. lia.
  - destruct (UPSERT_SQL it t) as [t1|e t1] eqn:E; [|discriminate].
    rewrite (IH _ H). simpl table_of.
    pose proof (UPSERT_SQL_case it t) as C. rewrite E in C.
    unfold is_update.
    inversion C
      as [| |ti u ls rs' _ _ Eu _ Hc| |ti u ls _ _ Eu _ Hn _];
      subst; rewrite Eu; simpl.
    + assert (existsb (fun r => String.eqb (url r) u) (rows t) = true) as ->.
      { apply existsb_url.
        destruct (on_conflict_Some _ _ _ _ Hc)
          as (l1 & r & l2 & -> & _ & <- & _).
        apply in_map, in_elt. }
      rewrite (on_conflict_length _ _ _ _ Hc). lia.
    + assert (existsb (fun r => String.eqb (url r) u) (rows t) = false) as ->.
      { destruct (existsb _ (rows t)) eqn:X; auto.
        apply existsb_url in X. contradiction. }
      rewrite length_app. simpl. lia.
Qed.

(** C9 (as amended). A run that commits prints one line with one number,
    the size of the batch.  Each item of such a run was either inserted or
    updated, so the number is the sum of the two counts, and the table has
    grown by the number inserted; the line does not tell the two apart and
    nothing is counted as skipped. *)
Theorem C9_one_count_printed
  (items : list Item.t) (d : database) (t : table) (line : string) :
  main_with items d = Printed (Some t) line ->
  line = ("Inserted/updated " ++ string_of_nat (List.length items)
          ++ " items.")%string
  /\ (count_inserted items (SCHEMA_SQL d)
      + count_updated items (SCHEMA_SQL d))%nat = List.length items
  /\ List.length (rows t)
     = (List.length (stored d) + count_inserted items (SCHEMA_SQL d))%nat.
Proof.
  unfold main_with. intros H.
  destruct (execute_each items (SCHEMA_SQL d)) as [t1|e t1] eqn:E;
    [|discriminate].
  injection H as -> <-.
  split; [reflexivity|]. split; [apply counts_partition|].
  rewrite (execute_each_length _ _ _ E).
  destruct d; reflexivity.
Qed.

Lemma C9_one_count_printed_witness :
  main day2 (Some (upserts (sample day1) empty_table))
  = Printed (Some (upserts (sample day1 ++ sample day2) empty_table))
      "Inserted/updated 3 items."
  /\ count_inserted (sample day2) (upserts (sample day1) empty_table) = 0%nat
  /\ count_updated (sample day2) (upserts (sample day1) empty_table) = 3%nat
  /\ List.length
       (rows (upserts (sample day1 ++ sample day2) empty_table)) = 3%nat.
Proof.
  assert (main_with (sample day2) (Some (upserts (sample day1) empty_table))
          = Printed
              (Some (upserts (sample day1 ++ sample day2) empty_table))
              "Inserted/updated 3 items.") as E
    by (vm_compute; reflexivity).
  destruct (C9_one_count_printed _ _ _ _ E) as (_ & _ & H).
  split; [exact E|]. split; [vm_compute; reflexivity|].
  split; [vm_compute; reflexivity|].
  rewrite H. vm_compute. reflexivity.
Defined.

(** The line printed by a first run (three rows inserted) and by a second
    run (the same three rows updated) is the same: no reading of the line
    gives the number inserted and the number updated. *)
Lemma C9_counterexample :
  ~ exists inserted updated skipped : string -> nat,
      forall items d t line,
        main_with items d = Printed (Some t) line ->
        inserted line = count_inserted items (SCHEMA_SQL d)
        /\ updated line = count_updated items (SCHEMA_SQL d)
        /\ (inserted line + updated line + skipped line)%nat
           = List.length items.
Proof.
  intros (fi & fu & fs & H).
  assert (main_with (sample day1) None
          = Printed (Some (upserts (sample day1) empty_table))
              "Inserted/updated 3 items.") as E1
    by (vm_compute; reflexivity).
  assert (main_with (sample day1) (Some (upserts (sample day1) empty_table))
          = Printed
              (Some (upserts (sample day1 ++ sample day1) empty_table))
              "Inserted/updated 3 items.") as E2
    by (vm_compute; reflexivity).
  destruct (H _ _ _ _ E1) as (A1 & _).
  destruct (H _ _ _ _ E2) as (A2 & _).
  vm_compute in A1, A2. congruence.
Qed.

(** ** Freshness *)

(** After a batch whose items all carry the day [today], a row either was
    there before and is named by no item, or is named by one and carries
    that day. *)
Lemma upserts_seen (today : date) (items : list Item.t) (t : table) :
  well_formed t ->
  id_seq t + Z.of_nat (List.length items) <= max_serial + 1 ->
  Forall (fun it => required_present it = true
                    /\ Item.last_seen it = Some today) items ->
  forall r',
    In r' (rows (upserts items t)) ->
    (In r' (rows t) /\ ~ In (Some (url r')) (map Item.url items))
    \/ (last_seen r' = today /\ In (Some (url r')) (map Item.url items)).
Proof.
  revert t. induction items as [|x items IH]; intros t Hwf Hs Hall r' Hin.
  - left. simpl in *. tauto.
  - inversion Hall as [|? ? [Hx Hls] Hrest]; subst.
    destruct (required_present_inv x Hx) as (ti & u & ls & Eti & Eu & Els).
    assert (ls = today) as -> by congruence.
    rewrite length_cons, Nat2Z.inj_succ in Hs.
    assert (id_seq t <= max_serial) as Hs0 by lia.
    destruct (UPSERT_SQL_Done x t ti u today Hwf Hs0 Eti Eu Els)
      as (l1 & l2 & n & E & Hshape).
    pose proof (UPSERT_SQL_well_formed x t Hwf) as Hwf1.
    simpl in Hin. rewrite E in *. simpl in Hwf1. simpl table_of in Hin.
    destruct (IH _ Hwf1) with (r' := r') as [[Hr1 Hno] | [Hd Hyes]]; auto.
    { unfold max_serial in *. simpl. lia. }
    + simpl in Hr1. simpl map. rewrite Eu.
      destruct (String.eqb_spec (url r') u) as [Heq|Hne].
      * right. split; [|left; congruence].
        assert (r' = excluded n ti u today x) as ->; [|reflexivity].
        apply (url_determines_row (l1 ++ excluded n ti u today x :: l2));
          auto.
        -- apply (wf_url _ Hwf1).
        -- apply in_elt.
      * left. split.
        -- apply in_app_or in Hr1.
           destruct Hr1 as [Hr1 | [Hr1 | Hr1]].
           ++ destruct Hshape as [(r & -> & _) | (-> & _)];
                [apply in_or_app; now left | exact Hr1].
           ++ subst r'. now elim Hne.
           ++ destruct Hshape as [(r & -> & _) | (_ & -> & _)];
                [apply in_or_app; right; now right | contradiction].
        -- intros [H|H]; [congruence | contradiction].
    + right. split; auto. simpl. now right.
Qed.

(** One run of [main]: it commits, the row of each sample url carries the
    day of the run, every other row is as it was. *)
Lemma main_run (today : date) (t0 : table) :
  well_formed t0 -> id_seq t0 + 3 <= max_serial + 1 ->
  execute_each (sample today) t0 = Done (upserts (sample today) t0)
  /\ well_formed (upserts (sample today) t0)
  /\ id_seq (upserts (sample today) t0) = id_seq t0 + 3
  /\ (forall it u,
        In it (sample today) -> Item.url it = Some u ->
        exists r,
          with_url u (rows (upserts (sample today) t0)) = [r]
          /\ last_seen r = today)
  /\ (forall r',
        In r' (rows (upserts (sample today) t0)) ->
        (In r' (rows t0)
         /\ ~ In (Some (url r')) (map Item.url (sample today)))
        \/ (last_seen r' = today
            /\ In (Some (url r')) (map Item.url (sample today)))).
Proof.
  intros Hwf Hs.
  assert (Forall (fun it => required_present it = true
                            /\ Item.last_seen it = Some today)
            (sample today)) as Hall
    by (repeat constructor).
  assert (forallb required_present (sample today) = true) as Hp
    by reflexivity.
  destruct (execute_each_Done (sample today) t0 Hwf Hs Hp) as [E Hseq].
  pose proof (upserts_well_formed (sample today) t0 Hwf) as Hwf'.
  pose proof (upserts_seen today (sample today) t0 Hwf Hs Hall) as Hseen.
  split; [exact E|]. split; [exact Hwf'|]. split; [exact Hseq|].
  split; [|exact Hseen].
  intros it u Hin Eu.
  pose proof (upserts_stores_urls (sample today) t0 Hwf Hs Hp it u Hin Eu)
    as Hu.
  apply in_map_iff in Hu. destruct Hu as (r & Hur & Hr).
  exists r. split.
  - destruct (in_split _ _ Hr) as (l1 & l2 & Esplit).
    rewrite Esplit, <- Hur. apply with_url_unique.
    rewrite <- Esplit. apply (wf_url _ Hwf').
  - destruct (Hseen r Hr) as [[_ Hno] | [Hd _]]; auto.
    exfalso. apply Hno. rewrite Hur, <- Eu. now apply in_map.
Qed.

(** Two runs of [main] one after the other, the second on a day not
    before the first: both commit, after each the rows of the sample carry
    the day of that run, and no row's [last_seen] goes back. *)
Lemma main_two_runs (today1 today2 : date) (d : database) :
  well_formed (SCHEMA_SQL d) ->
  id_seq (SCHEMA_SQL d) + 6 <= max_serial + 1 ->
  date_leb today1 today2 = true ->
  exists t1 line1 t2 line2,
    main today1 d = Printed (Some t1) line1
    /\ main today2 (Some t1) = Printed (Some t2) line2
    /\ (forall it u,
          In it (sample today1) -> Item.url it = Some u ->
          exists r, with_url u (rows t1) = [r] /\ last_seen r = today1)
    /\ (forall it u,
          In it (sample today2) -> Item.url it = Some u ->
          exists r, with_url u (rows t2) = [r] /\ last_seen r = today2)
    /\ (forall r1 r2,
          In r1 (rows t1) -> In r2 (rows t2) -> url r1 = url r2 ->
          date_leb (last_seen r1) (last_seen r2) = true).
Proof.
  intros Hwf Hs Hle.
  destruct (main_run today1 (SCHEMA_SQL d) Hwf ltac:(lia))
    as (E1 & Hwf1 & Hseq1 & A1 & B1).
  destruct (main_run today2 (upserts (sample today1) (SCHEMA_SQL d)) Hwf1
              ltac:(lia))
    as (E2 & Hwf2 & Hseq2 & A2 & B2).
  exists (upserts (sample today1) (SCHEMA_SQL d)),
    "Inserted/updated 3 items."%string,
    (upserts (sample today2) (upserts (sample today1) (SCHEMA_SQL d))),
    "Inserted/updated 3 items."%string.
  split; [unfold main, main_with; rewrite E1; reflexivity|].
  split.
  { unfold main, main_with.
    change (SCHEMA_SQL (Some (upserts (sample today1) (SCHEMA_SQL d))))
      with (upserts (sample today1) (SCHEMA_SQL d)).
    rewrite E2. reflexivity. }
  split; [exact A1|]. split; [exact A2|].
  intros r1 r2 H1 H2 Hu.
  destruct (B2 r2 H2) as [[Hold _] | [Hd2 Hin2]].
  - assert (r1 = r2) as ->
      by (apply (url_determines_row _ _ _ (wf_url _ Hwf1) H1 Hold Hu)).
    apply date_leb_refl.
  - destruct (B1 r1 H1) as [[_ Hno] | [Hd1 _]].
    + exfalso. apply Hno. rewrite Hu. exact Hin2.
    + now rewrite Hd1, Hd2.
Qed.

(** * Further properties of the code *)

(** ** Database configuration *)

Lemma prefix_split (p s : string) :
  String.prefix p s = true -> exists rest : string, s = (p ++ rest)%string.
Proof.
  revert s. induction p as [|c p IH]; intros s H.
  - exists s. reflexivity.
  - destruct s as [|d s]; simpl in H; [discriminate|].
    destruct (ascii_dec c d) as [->|]; [|discriminate].
    destruct (IH s H) as (rest & ->). exists rest. reflexivity.
Qed.

Lemma prefix_append (p rest : string) : String.prefix p (p ++ rest) = true.
Proof.
  induction p as [|c p IH]; simpl.
  - destruct rest; reflexivity.
  - destruct (ascii_dec c c); [exact IH | contradiction].
Qed.

Lemma skip_append (p rest : string) :
  skip (String.length p) (p ++ rest) = rest.
Proof.
  induction p as [|c p IH]; simpl; auto.
Qed.

Lemma replace_first_unfold (old new s : string) :
  replace_first old new s
  = if String.prefix old s then (new ++ skip (String.length old) s)%string
    else
      match s with
      | EmptyString => EmptyString
      | String c s' => String c (replace_first old new s')
      end.
Proof.
  destruct s; reflexivity.
Qed.

Lemma replace_first_prefix (old new rest : string) :
  replace_first old new (old ++ rest) = (new ++ rest)%string.
Proof.
  rewrite replace_first_unfold, prefix_append, skip_append. reflexivity.
Qed.

Lemma normalize_postgres (rest : string) :
  _normalize_database_url ("postgres://" ++ rest)
  = ("postgresql://" ++ rest)%string.
Proof.
  unfold _normalize_database_url. rewrite prefix_append.
  apply replace_first_prefix.
Qed.

Lemma normalize_other (url : string) :
  String.prefix "postgres://" url = false ->
  _normalize_database_url url = url.
Proof.
  unfold _normalize_database_url. intros ->. reflexivity.
Qed.

Lemma normalize_not_postgres (url : string) :
  String.prefix "postgres://" (_normalize_database_url url) = false.
Proof.
  destruct (String.prefix "postgres://" url) eqn:E.
  - destruct (prefix_split _ _ E) as (rest & ->).
    rewrite normalize_postgres. destruct rest; reflexivity.
  - now rewrite (normalize_other _ E).
Qed.

(** X1. Only a leading [postgres://] is rewritten, to [postgresql://]; what
    follows it is kept as it is, later occurrences of [postgres://]
    included, and a url that does not begin with it is not changed. *)
Theorem normalize_database_url_spec (url : string) :
  (forall rest : string,
     url = ("postgres://" ++ rest)%string ->
     _normalize_database_url url = ("postgresql://" ++ rest)%string)
  /\ (String.prefix "postgres://" url = false ->
      _normalize_database_url url = url).
Proof.
  split.
  - intros rest ->. apply normalize_postgres.
  - apply normalize_other.
Qed.

Lemma normalize_database_url_spec_witness :
  _normalize_database_url "postgres://u:p@host/db?x=postgres://"
  = "postgresql://u:p@host/db?x=postgres://"
  /\ _normalize_database_url "mysql://postgres://h" = "mysql://postgres://h".
Proof.
  split.
  - apply (proj1 (normalize_database_url_spec
                    "postgres://u:p@host/db?x=postgres://")
             "u:p@host/db?x=postgres://").
    reflexivity.
  - apply (proj2 (normalize_database_url_spec "mysql://postgres://h")).
    reflexivity.
Defined.

(** X2. A normalised url never begins with [postgres://], and normalising it
    again changes nothing. *)
Theorem normalize_database_url_idempotent (url : string) :
  String.prefix "postgres://" (_normalize_database_url url) = false
  /\ _normalize_database_url (_normalize_database_url url)
     = _normalize_database_url url.
Proof.
  split.
  - apply normalize_not_postgres.
  - apply normalize_other, normalize_not_postgres.
Qed.

Lemma get_engine_nonempty (c : ascii) (s : string) :
  get_engine (Some (String c s))
  = {| engine_url := _normalize_database_url (String c s);
       pool_pre_ping := true;
       connect_args :=
         if String.prefix "sqlite" (_normalize_database_url (String c s))
         then [("check_same_thread"%string, false)]
         else [] |}.
Proof.
  reflexivity.
Qed.

(** X3. [get_engine] falls back to the SQLite file when [DATABASE_URL] is unset
    or empty, and passes [check_same_thread] then; a [postgres://] url
    reaches [create_engine] as [postgresql://], without connect arguments;
    in no case does the url handed over begin with [postgres://]. *)
Theorem get_engine_url (DATABASE_URL : option string) :
  String.prefix "postgres://" (engine_url (get_engine DATABASE_URL)) = false
  /\ (DATABASE_URL = None \/ DATABASE_URL = Some EmptyString ->
      engine_url (get_engine DATABASE_URL) = sqlite_fallback
      /\ connect_args (get_engine DATABASE_URL)
         = [("check_same_thread"%string, false)])
  /\ (forall rest : string,
        DATABASE_URL = Some ("postgres://" ++ rest)%string ->
        engine_url (get_engine DATABASE_URL) = ("postgresql://" ++ rest)%string
        /\ connect_args (get_engine DATABASE_URL) = []).
Proof.
  split; [|split].
  - unfold get_engine. simpl.
    apply normalize_not_postgres.
  - intros [-> | ->]; split; reflexivity.
  - intros rest ->.
    change (Some ("postgres://" ++ rest)%string)
      with (Some (String "p" ("ostgres://" ++ rest)%string)).
    rewrite get_engine_nonempty.
    change (String "p" ("ostgres://" ++ rest)%string)
      with ("postgres://" ++ rest)%string.
    rewrite normalize_postgres.
    split; reflexivity.
Qed.

Lemma get_engine_url_witness :
  engine_url (get_engine (Some EmptyString)) = sqlite_fallback
  /\ engine_url (get_engine (Some "postgres://render/db"))
     = "postgresql://render/db"
  /\ connect_args (get_engine (Some "postgres://render/db")) = [].
Proof.
  destruct (get_engine_url (Some EmptyString)) as (_ & H1 & _).
  destruct (get_engine_url (Some "postgres://render/db")) as (_ & _ & H2).
  destruct (H1 (or_intror eq_refl)) as [E1 _].
  destruct (H2 "render/db" eq_refl) as [E2 E3].
  split; [exact E1|]. split; [exact E2 | exact E3].
Defined.

(** X4. The scraper and the web application connect to the same url for every
    setting of [DATABASE_URL] but the empty string, for which the scraper
    passes the empty url on while the application takes the SQLite file. *)
Theorem scrape_engine_agrees (DATABASE_URL : option string) :
  (DATABASE_URL <> Some EmptyString ->
   engine_url (scrape_engine DATABASE_URL)
   = engine_url (get_engine DATABASE_URL))
  /\ engine_url (scrape_engine (Some EmptyString)) = EmptyString
  /\ engine_url (get_engine (Some EmptyString)) = sqlite_fallback.
Proof.
  split; [|split; reflexivity].
  intros H. destruct DATABASE_URL as [[|c s]|]; try reflexivity.
  now elim H.
Qed.

Lemma scrape_engine_agrees_witness :
  engine_url (scrape_engine (Some "postgres://render/db"))
  = engine_url (get_engine (Some "postgres://render/db")).
Proof.
  apply (proj1 (scrape_engine_agrees (Some "postgres://render/db"))).
  discriminate.
Defined.

(** ** Escaping *)

Lemma append_assoc (a b c : string) :
  ((a ++ b) ++ c = a ++ (b ++ c))%string.
Proof.
  induction a as [|x a IH]; simpl; congruence.
Qed.

Lemma esc_Some (s : string) :
  esc (Some s)
  = replace_char ">" "&gt;"
      (replace_char "<" "&lt;" (replace_char "&" "&amp;" s)).
Proof.
  destruct s; reflexivity.
Qed.

(** The three passes of [esc] amount to one pass that replaces each
    character on its own. *)
Lemma esc_escape_each (s : string) : esc (Some s) = escape_each s.
Proof.
  rewrite esc_Some. induction s as [|c s IH]; [reflexivity|].
  simpl escape_each. rewrite <- IH. unfold esc_char.
  destruct (Ascii.eqb_spec c "&") as [->|N1]; [reflexivity|].
  destruct (Ascii.eqb_spec c "<") as [->|N2]; [reflexivity|].
  destruct (Ascii.eqb_spec c ">") as [->|N3]; [reflexivity|].
  apply Ascii.eqb_neq in N1, N2, N3.
  simpl. rewrite N1. simpl. rewrite N2. simpl. rewrite N3. reflexivity.
Qed.

Lemma has_char_append (c : ascii) (a b : string) :
  has_char c (a ++ b) = has_char c a || has_char c b.
Proof.
  induction a as [|d a IH]; simpl; auto.
  now rewrite IH, orb_assoc.
Qed.

Lemma escape_each_append (a b : string) :
  escape_each (a ++ b) = (escape_each a ++ escape_each b)%string.
Proof.
  induction a as [|c a IH]; simpl; auto.
  now rewrite IH, append_assoc.
Qed.

(** X5. What [esc] returns holds no [<] and no [>], whatever it is given. *)
Theorem esc_no_angle_bracket (s : option string) :
  has_char "<" (esc s) = false /\ has_char ">" (esc s) = false.
Proof.
  destruct s as [s|]; [|split; reflexivity].
  rewrite esc_escape_each.
  induction s as [|c s [IH1 IH2]]; [split; reflexivity|].
  simpl. rewrite !has_char_append, IH1, IH2, !orb_false_r.
  unfold esc_char.
  destruct (Ascii.eqb_spec c "&"); [split; reflexivity|].
  destruct (Ascii.eqb_spec c "<"); [split; reflexivity|].
  destruct (Ascii.eqb_spec c ">"); [split; reflexivity|].
  simpl. rewrite !orb_false_r.
  split; apply Ascii.eqb_neq; assumption.
Qed.

(** X6. [esc] works piece by piece: escaping a text put together from two
    parts gives the two escaped parts put together. *)
Theorem esc_append (a b : string) :
  esc (Some (a ++ b)%string) = (esc (Some a) ++ esc (Some b))%string.
Proof.
  rewrite !esc_escape_each. apply escape_each_append.
Qed.

(** X7. Two different texts are never escaped to the same text. *)
Theorem esc_injective (a b : string) :
  esc (Some a) = esc (Some b) -> a = b.
Proof.
  rewrite !esc_escape_each. revert b.
  induction a as [|c a IH]; intros [|d b] H; auto.
  - exfalso. simpl in H. unfold esc_char in H.
    destruct (Ascii.eqb d "&"); [discriminate|].
    destruct (Ascii.eqb d "<"); [discriminate|].
    destruct (Ascii.eqb d ">"); discriminate.
  - exfalso. simpl in H. unfold esc_char in H.
    destruct (Ascii.eqb c "&"); [discriminate|].
    destruct (Ascii.eqb c "<"); [discriminate|].
    destruct (Ascii.eqb c ">"); discriminate.
  - simpl in H. unfold esc_char in H.
    destruct (Ascii.eqb_spec c "&") as [->|C1];
      [|destruct (Ascii.eqb_spec c "<") as [->|C2];
        [|destruct (Ascii.eqb_spec c ">") as [->|C3]]];
    (destruct (Ascii.eqb_spec d "&") as [->|D1];
      [|destruct (Ascii.eqb_spec d "<") as [->|D2];
        [|destruct (Ascii.eqb_spec d ">") as [->|D3]]]);
    simpl in H; try discriminate;
    try (injection H as H; f_equal; now apply IH);
    try (injection H as E H; congruence);
    try (injection H as E H; subst; f_equal; now apply IH).
Qed.

Lemma esc_injective_witness : "a<b" = "a<b".
Proof.
  apply (esc_injective "a<b" "a<b"). reflexivity.
Defined.

(** X8. [esc] leaves the double quote as it is: a text with one keeps it when
    escaped, as in the [href] and [value] attributes of the page. *)
Theorem esc_keeps_double_quote (s : string) :
  has_char double_quote (esc (Some s)) = has_char double_quote s.
Proof.
  rewrite esc_escape_each.
  induction s as [|c s IH]; [reflexivity|].
  simpl. rewrite has_char_append, IH. f_equal.
  unfold esc_char.
  destruct (Ascii.eqb_spec c "&") as [->|]; [reflexivity|].
  destruct (Ascii.eqb_spec c "<") as [->|]; [reflexivity|].
  destruct (Ascii.eqb_spec c ">") as [->|]; [reflexivity|].
  simpl. apply orb_false_r.
Qed.

(** ** The form of the home page *)

(** X9. The drop-down marks "Remote only" exactly when the query is filtered on
    remote records and "In-person only" exactly when it is filtered on the
    others; "any" is marked only when [remote] is absent, so for any other
    value that filters nothing (the empty string, say) no option is marked.
    Never are two options marked. *)
Theorem remote_options_consistent (remote : option string) :
  (snd (fst (remote_options remote)) = true
   <-> remote_bool remote = Some true)
  /\ (snd (remote_options remote) = true
      <-> remote_bool remote = Some false)
  /\ (fst (fst (remote_options remote)) = true <-> remote = None)
  /\ (remote <> None -> remote_bool remote = None ->
      remote_options remote = (false, false, false))
  /\ (remote_options remote = (true, false, false)
      \/ remote_options remote = (false, true, false)
      \/ remote_options remote = (false, false, true)
      \/ remote_options remote = (false, false, false)).
Proof.
  unfold remote_options, remote_bool.
  destruct remote as [s|]; simpl.
  - destruct (String.eqb_spec s "yes") as [->|Hy]; simpl.
    + repeat split; try discriminate; try tauto; auto.
    + destruct (String.eqb_spec s "no") as [->|Hn]; simpl;
        repeat split; try discriminate; try tauto; auto.
  - repeat split; try discriminate; try tauto; auto.
Qed.

Lemma remote_options_consistent_witness :
  remote_options (Some EmptyString) = (false, false, false)
  /\ remote_bool (Some EmptyString) = None.
Proof.
  destruct (remote_options_consistent (Some EmptyString))
    as (_ & _ & _ & H & _).
  split; [apply H; [discriminate | reflexivity] | reflexivity].
Defined.

(** ** The deadline of the first sample *)

Lemma days_in_month_28 (y m : Z) : 28 <= days_in_month y m.
Proof.
  unfold days_in_month.
  destruct (m =? 2); [destruct (is_leap y); lia|].
  destruct ((m =? 4) || (m =? 6) || (m =? 9) || (m =? 11)); lia.
Qed.

Lemma valid_date_inv (d : date) :
  valid_date d = true <->
  1 <= year d <= 9999 /\ 1 <= month d <= 12
  /\ 1 <= day d <= days_in_month (year d) (month d).
Proof.
  unfold valid_date.
  rewrite !andb_true_iff, !Z.leb_le. tauto.
Qed.

Lemma date_leb_same_month (d : date) (n : Z) :
  n <= day d -> date_leb (replace_day d n) d = true.
Proof.
  intros H. unfold date_leb, date_compare, replace_day. simpl.
  rewrite !Z.compare_refl.
  destruct (Z.compare_spec n (day d)); auto. lia.
Qed.

(** X10. On every day the calendar has, [today.replace(day=min(today.day, 28))]
    raises no [ValueError]; the date it gives is in the month of [today],
    is not after [today], and is [today] itself up to the 28th.  So the
    deadline of the first sample is a date of the calendar that has been
    reached. *)
Theorem sample_deadline_valid (today : date) :
  valid_date today = true ->
  date_replace_day today (Z.min (day today) 28)
  = Some (replace_day today (Z.min (day today) 28))
  /\ date_leb (replace_day today (Z.min (day today) 28)) today = true
  /\ (day today <= 28 -> replace_day today (Z.min (day today) 28) = today)
  /\ forall it dl,
       In it (sample today) -> Item.cfp_deadline it = Some dl ->
       valid_date dl = true /\ date_leb dl today = true.
Proof.
  intros Hv.
  assert (valid_date (replace_day today (Z.min (day today) 28)) = true)
    as Hv'.
  { apply valid_date_inv in Hv. apply valid_date_inv.
    unfold replace_day. simpl.
    pose proof (days_in_month_28 (year today) (month today)). lia. }
  assert (date_leb (replace_day today (Z.min (day today) 28)) today = true)
    as Hle by (apply date_leb_same_month; lia).
  split; [unfold date_replace_day; now rewrite Hv'|].
  split; [exact Hle|]. split.
  - intros H. unfold replace_day. rewrite Z.min_l by lia.
    destruct today; reflexivity.
  - intros it dl [<-|[<-|[<-|[]]]] E; simpl in E; try discriminate.
    injection E as <-. auto.
Qed.

Lemma sample_deadline_valid_witness :
  date_replace_day (mkDate 2024 2 29) (Z.min 29 28) = Some (mkDate 2024 2 28)
  /\ date_replace_day (mkDate 2023 2 28) 29 = None.
Proof.
  split; [|reflexivity].
  apply (proj1 (sample_deadline_valid (mkDate 2024 2 29) eq_refl)).
Defined.

(** ** More on the query *)


(** X12. For a limit that is not negative, the number of records returned
    is the limit or the number of stored records that pass the filters,
    whichever is smaller. *)
Theorem fetch_opportunities_length
  (q tag : option string) (remote : option bool) (limit : Z) (t : table)
  (res : list row) :
  0 <= limit ->
  fetch_opportunities q tag remote limit t = Ok res ->
  List.length res
  = Nat.min (Z.to_nat limit)
      (List.length (filter (selected q tag remote) (rows t)))
  /\ Z.of_nat (List.length res) <= limit
  /\ (List.length res <= List.length (rows t))%nat.
Proof.
  unfold fetch_opportunities. fold (selected q tag remote). intros Hl H.
  apply sql_limit_Ok in H. destruct H as [_ ->].
  rewrite length_firstn,
    <- (Permutation_length (order_by_perm _)).
  pose proof (filter_length_le (selected q tag remote) (rows t)).
  unfold selected in *. split; [reflexivity|]. split.
  - apply Z.le_trans with (Z.of_nat (Z.to_nat limit)).
    + apply Nat2Z.inj_le, Nat.le_min_l.
    + rewrite Z2Nat.id; lia.
  - etransitivity; [apply Nat.le_min_r | exact H].
Qed.

Lemma fetch_opportunities_length_witness :
  List.length (rows_of (fetch_opportunities None (Some "grid") None 50
                          table_xyz)) = 1%nat.
Proof.
  destruct (fetch_opportunities_length None (Some "grid") None 50 table_xyz
              (rows_of (fetch_opportunities None (Some "grid") None 50
                          table_xyz))
              ltac:(lia) ltac:(vm_compute; reflexivity)) as (H & _).
  rewrite H. vm_compute. reflexivity.
Defined.



Lemma filter_keeps_distinct {K : Type} (key : row -> K) (keep : row -> bool)
  (rs : list row) :
  NoDup (map key rs) -> NoDup (map key (filter keep rs)).
Proof.
  intros Hd. induction rs as [|x rs IH]; simpl; [constructor|].
  simpl in Hd. apply NoDup_cons_iff in Hd. destruct Hd as [Hx Hrs].
  destruct (keep x); simpl; auto.
  constructor; auto.
  intros Hin. apply Hx. apply in_map_iff in Hin.
  destruct Hin as (y & E & Hy). apply filter_In in Hy.
  rewrite <- E. apply in_map. tauto.
Qed.

Lemma NoDup_firstn {A : Type} (n : nat) (l : list A) :
  NoDup l -> NoDup (firstn n l).
Proof.
  intros H. rewrite <- (firstn_skipn n l) in H.
  now apply NoDup_app_remove_r in H.
Qed.

(** X14. On a table that satisfies the constraints of the schema, no record is
    returned twice: the urls of a result are pairwise different, and so are
    its ids. *)
Theorem fetch_opportunities_no_duplicates
  (q tag : option string) (remote : option bool) (limit : Z) (t : table)
  (res : list row) :
  well_formed t ->
  fetch_opportunities q tag remote limit t = Ok res ->
  NoDup (map url res) /\ NoDup (map id res).
Proof.
  unfold fetch_opportunities. intros [Hu Hi _] H.
  apply sql_limit_Ok in H. destruct H as [_ ->].
  split; rewrite <- firstn_map; apply NoDup_firstn.
  - apply (Permutation_NoDup
             (Permutation_map url (order_by_perm _))).
    now apply filter_keeps_distinct.
  - apply (Permutation_NoDup
             (Permutation_map id (order_by_perm _))).
    now apply filter_keeps_distinct.
Qed.

Lemma fetch_opportunities_no_duplicates_witness :
  NoDup (map url (rows_of (fetch_opportunities None None None 50 table_xyz)))
  /\ NoDup (map id (rows_of (fetch_opportunities None None None 50
                               table_xyz))).
Proof.
  apply (fetch_opportunities_no_duplicates None None None 50 table_xyz).
  - apply upserts_well_formed, well_formed_empty.
  - vm_compute. reflexivity.
Defined.

Lemma lower_empty (s : string) : lower s = EmptyString -> s = EmptyString.
Proof.
  destruct s; [reflexivity | discriminate].
Qed.

Lemma where_list_lower (s s' : string) (tag : option string)
  (remote : option bool) :
  lower s = lower s' ->
  where_list (Some s) tag remote = where_list (Some s') tag remote
  /\ where_list tag (Some s) remote = where_list tag (Some s') remote.
Proof.
  intros H.
  assert (like_param s = like_param s') as E
    by (unfold like_param; now rewrite H).
  assert (truthy (Some s) = truthy (Some s')) as T.
  { destruct s as [|c s], s' as [|c' s']; auto; discriminate. }
  unfold where_list. rewrite T, E. split; reflexivity.
Qed.

(** X15. The result depends on the text query and on the tag only through their
    lower-case forms, and an empty text query or tag gives what an absent
    one gives. *)
Theorem fetch_opportunities_case_and_empty
  (q tag : option string) (remote : option bool) (limit : Z) (t : table) :
  (forall s s',
     lower s = lower s' ->
     fetch_opportunities (Some s) tag remote limit t
     = fetch_opportunities (Some s') tag remote limit t)
  /\ (forall s s',
        lower s = lower s' ->
        fetch_opportunities q (Some s) remote limit t
        = fetch_opportunities q (Some s') remote limit t)
  /\ fetch_opportunities (Some EmptyString) tag remote limit t
     = fetch_opportunities None tag remote limit t
  /\ fetch_opportunities q (Some EmptyString) remote limit t
     = fetch_opportunities q None remote limit t.
Proof.
  unfold fetch_opportunities. split; [|split; [|split]].
  - intros s s' H.
    now rewrite (proj1 (where_list_lower s s' tag remote H)).
  - intros s s' H.
    now rewrite (proj2 (where_list_lower s s' q remote H)).
  - reflexivity.
  - reflexivity.
Qed.

Lemma fetch_opportunities_case_and_empty_witness :
  fetch_opportunities (Some "TaLk z") None None 50 table_xyz
  = fetch_opportunities (Some "talk Z") None None 50 table_xyz.
Proof.
  apply (proj1 (fetch_opportunities_case_and_empty
                  None None None 50 table_xyz)).
  reflexivity.
Defined.



(** ** The endpoints *)






Lemma ends_in_escape_closed (s : string) :
  ends_in_escape (s ++ "%") = false
  /\ forall c, ends_in_escape (String c s ++ "%") = false.
Proof.
  induction s as [|d s [IH1 IH2]].
  - split; [reflexivity|].
    intros c. simpl. destruct (Ascii.eqb c "\"); reflexivity.
  - split; [apply IH2|].
    intros c.
    change (ends_in_escape (String c (String d (s ++ "%"))) = false).
    simpl. destruct (Ascii.eqb c "\"); [exact IH1 | apply IH2].
Qed.

(** X19. Whatever is typed, the pattern made of it never ends in a lone escape
    character: a backslash at the end of the text takes the closing [%]
    with it.  So the database never rejects the pattern of a query. *)
Theorem like_param_never_ends_in_escape (q : string) :
  ends_in_escape (like_param q) = false.
Proof.
  unfold like_param.
  change ("%" ++ lower q ++ "%")%string with (String "%" (lower q ++ "%")).
  change (ends_in_escape (String "%" (lower q ++ "%")))
    with (ends_in_escape (lower q ++ "%")).
  apply ends_in_escape_closed.
Qed.

(** ** The ranking *)

Section Comparisons.
Context {A : Type}.

Lemma lex_laws (c1 c2 : A -> A -> comparison) :
  cmp_laws c1 -> cmp_laws c2 -> cmp_laws (lex c1 c2).
Proof.
  intros [l1 r1 t1] [l2 r2 t2]. unfold lex. split.
  - intros a b d r Hab Hbd.
    destruct (c1 a b) eqn:E1; try discriminate.
    destruct (c1 b d) eqn:E2.
    + rewrite (l1 a b d Eq E1 E2). eauto.
    + rewrite (l1 a b d Lt E1 E2). auto.
    + rewrite (l1 a b d Gt E1 E2). auto.
  - intros a b d r Hab Hbd.
    destruct (c1 b d) eqn:E2; try discriminate.
    destruct (c1 a b) eqn:E1.
    + rewrite (r1 a b d Eq E1 E2). eauto.
    + rewrite (r1 a b d Lt E1 E2). auto.
    + rewrite (r1 a b d Gt E1 E2). auto.
  - intros a b d Hab Hbd.
    destruct (c1 a b) eqn:E1; try discriminate;
      destruct (c1 b d) eqn:E2; try discriminate.
    + rewrite (l1 a b d Eq E1 E2). eauto.
    + now rewrite (l1 a b d Lt E1 E2).
    + now rewrite (r1 a b d Lt E1 E2).
    + now rewrite (t1 a b d E1 E2).
Qed.

Lemma by_key_laws {K : Type} (c : K -> K -> comparison) (key : A -> K) :
  cmp_laws c -> cmp_laws (fun a b => c (key a) (key b)).
Proof.
  intros [l r t]. split; eauto.
Qed.

Lemma descending_laws (c : A -> A -> comparison) :
  cmp_laws c -> cmp_laws (fun a b => c b a).
Proof.
  intros [l r t]. split; eauto.
Qed.

Lemma cmp_leb_trans (c : A -> A -> comparison) (a b d : A) :
  cmp_laws c -> c a b <> Gt -> c b d <> Gt -> c a d <> Gt.
Proof.
  intros [l r t] Hab Hbd.
  destruct (c a b) eqn:E1; [| |congruence].
  - destruct (c b d) eqn:E2; [| |congruence].
    + rewrite (l a b d Eq E1 E2). discriminate.
    + rewrite (l a b d Lt E1 E2). discriminate.
  - destruct (c b d) eqn:E2; [| |congruence].
    + rewrite (r a b d Lt E1 E2). discriminate.
    + rewrite (t a b d E1 E2). discriminate.
Qed.
End Comparisons.

Lemma Z_compare_laws : cmp_laws Z.compare.
Proof.
  split.
  - intros a b d r H <-. apply Z.compare_eq in H. now subst.
  - intros a b d r <- H. apply Z.compare_eq in H. now subst.
  - intros a b d. rewrite !Z.compare_lt_iff. lia.
Qed.

Lemma date_compare_laws : cmp_laws date_compare.
Proof.
  change date_compare
    with (lex (fun a b => year a ?= year b)
            (lex (fun a b => month a ?= month b)
               (fun a b => day a ?= day b))).
  repeat apply lex_laws;
    apply (by_key_laws Z.compare _ Z_compare_laws).
Qed.

Lemma date_compare_eq (a b : date) : date_compare a b = Eq <-> a = b.
Proof.
  split.
  - unfold date_compare. destruct a as [y m d], b as [y' m' d']. simpl.
    destruct (Z.compare_spec y y'); try discriminate.
    destruct (Z.compare_spec m m'); try discriminate.
    destruct (Z.compare_spec d d'); try discriminate.
    intros _. congruence.
  - intros ->. unfold date_compare. now rewrite !Z.compare_refl.
Qed.

Lemma asc_compare_laws : cmp_laws asc_compare.
Proof.
  destruct date_compare_laws as [l r t]. split.
  - intros [a|] [b|] [d|] x; simpl; try discriminate; eauto.
  - intros [a|] [b|] [d|] x; simpl; try discriminate; eauto.
  - intros [a|] [b|] [d|]; simpl; try discriminate; eauto.
Qed.

Lemma order_compare_laws : cmp_laws order_compare.
Proof.
  change order_compare
    with (lex (fun a b => null_case a ?= null_case b)
            (lex (fun a b => asc_compare (cfp_deadline a) (cfp_deadline b))
               (fun a b => date_compare (last_seen b) (last_seen a)))).
  apply lex_laws; [|apply lex_laws].
  - apply (by_key_laws Z.compare _ Z_compare_laws).
  - apply (by_key_laws asc_compare _ asc_compare_laws).
  - apply (descending_laws (fun a b => date_compare (last_seen a)
                                         (last_seen b))).
    apply (by_key_laws date_compare _ date_compare_laws).
Qed.

Lemma order_leb_trans (a b d : row) :
  order_leb a b = true -> order_leb b d = true -> order_leb a d = true.
Proof.
  unfold order_leb. intros Hab Hbd.
  pose proof (cmp_leb_trans order_compare a b d order_compare_laws) as T.
  destruct (order_compare a b); try discriminate;
    destruct (order_compare b d); try discriminate;
    destruct (order_compare a d); auto;
    exfalso; apply T; congruence.
Qed.

(** X20. Two records tie in the ranking exactly when they have the same
    deadline (or both none) and were last seen on the same day: the three
    keys of [ORDER BY] do not tell such records apart, whatever their
    ids. *)
Theorem order_compare_tie (a b : row) :
  order_compare a b = Eq
  <-> cfp_deadline a = cfp_deadline b /\ last_seen a = last_seen b.
Proof.
  unfold order_compare, null_case.
  destruct (cfp_deadline a) as [x|], (cfp_deadline b) as [y|]; simpl.
  - destruct (date_compare x y) eqn:E.
    + apply date_compare_eq in E. subst y.
      rewrite date_compare_eq. split; [intros ->; auto | intros [_ ->]; auto].
    + split; [discriminate|]. intros [H _]. injection H as ->.
      rewrite (proj2 (date_compare_eq y y) eq_refl) in E. discriminate.
    + split; [discriminate|]. intros [H _]. injection H as ->.
      rewrite (proj2 (date_compare_eq y y) eq_refl) in E. discriminate.
  - split; [discriminate | intros [H _]; discriminate].
  - split; [discriminate | intros [H _]; discriminate].
  - rewrite date_compare_eq. split; [intros ->; auto | intros [_ ->]; auto].
Qed.

Lemma StronglySorted_app_cross {A : Type} (R : A -> A -> Prop)
  (l1 l2 : list A) :
  StronglySorted R (l1 ++ l2) ->
  forall a b, In a l1 -> In b l2 -> R a b.
Proof.
  induction l1 as [|x l1 IH]; simpl; intros H a b Ha Hb; [contradiction|].
  inversion H as [|? ? Hs Hall]; subst.
  destruct Ha as [->|Ha].
  - rewrite Forall_forall in Hall. apply Hall, in_or_app. now right.
  - now apply IH.
Qed.

(** X21. The limit keeps the top of the ranking: a record that is returned
    ranks before, or ties with, every record that passes the filters and
    is not returned. *)
Theorem fetch_opportunities_top
  (q tag : option string) (remote : option bool) (limit : Z) (t : table)
  (res : list row) (r x : row) :
  fetch_opportunities q tag remote limit t = Ok res ->
  In r res ->
  In x (rows t) -> selected q tag remote x = true -> ~ In x res ->
  order_leb r x = true.
Proof.
  unfold fetch_opportunities. fold (selected q tag remote).
  intros H Hr Hx Hsel Hout.
  apply sql_limit_Ok in H. destruct H as [_ ->].
  set (l := order_by (filter (selected q tag remote) (rows t))) in *.
  assert (StronglySorted (fun a b => order_leb a b = true) l) as S.
  { apply Sorted_StronglySorted.
    - intros a b d. apply order_leb_trans.
    - apply order_by_sorted. }
  rewrite <- (firstn_skipn (Z.to_nat limit) l) in S.
  apply (StronglySorted_app_cross _ _ _ S); auto.
  assert (In x l) as Hl.
  { apply (Permutation_in _ (order_by_perm _)).
    apply filter_In. auto. }
  rewrite <- (firstn_skipn (Z.to_nat limit) l) in Hl.
  apply in_app_or in Hl. tauto.
Qed.

Lemma fetch_opportunities_top_witness :
  order_leb
    (hd no_row (rows_of (fetch_opportunities None None None 1 table_xyz)))
    (hd no_row (rows table_xyz))
  = true.
Proof.
  apply (fetch_opportunities_top None None None 1 table_xyz
           (rows_of (fetch_opportunities None None None 1 table_xyz))).
  - vm_compute. reflexivity.
  - vm_compute. left. reflexivity.
  - vm_compute. left. reflexivity.
  - reflexivity.
  - vm_compute. intros [H|[]]. discriminate.
Defined.

(** ** More on the upsert *)

Lemma UPSERT_SQL_id_seq (it : Item.t) (t : table) :
  id_seq t <= id_seq (table_of (UPSERT_SQL it t)) <= id_seq t + 1.
Proof.
  destruct (UPSERT_SQL_case it t); simpl; lia.
Qed.

Lemma UPSERT_SQL_positive_ids (it : Item.t) (t : table) :
  1 <= id_seq t -> Forall (fun r => 1 <= id r) (rows t) ->
  Forall (fun r => 1 <= id r) (rows (table_of (UPSERT_SQL it t))).
Proof.
  intros Hs Hall.
  destruct (UPSERT_SQL_case it t)
    as [| |ti u ls rs' _ _ _ _ Hc| |]; simpl; auto.
  - destruct (on_conflict_Some _ _ _ _ Hc) as (l1 & r & l2 & E & -> & _).
    rewrite E in Hall. apply Forall_app in Hall. destruct Hall as [H1 H2].
    inversion H2; subst. apply Forall_app. split; auto.
  - apply Forall_app. split; auto.
Qed.

Lemma upserts_positive_ids (items : list Item.t) (t : table) :
  1 <= id_seq t -> Forall (fun r => 1 <= id r) (rows t) ->
  Forall (fun r => 1 <= id r) (rows (upserts items t))
  /\ id_seq t <= id_seq (upserts items t)
     <= id_seq t + Z.of_nat (List.length items).
Proof.
  revert t. induction items as [|it items IH]; intros t H1 H2.
  - simpl. split; auto. lia.
  - pose proof (UPSERT_SQL_id_seq it t) as Hq.
    pose proof (UPSERT_SQL_positive_ids it t H1 H2) as Hp.
    destruct (IH (table_of (UPSERT_SQL it t))) as [G1 G2]; auto; try lia.
    simpl upserts. split; auto.
    rewrite length_cons, Nat2Z.inj_succ. lia.
Qed.

(** X22. From the empty table on, whatever upserts are run: the ids stored are
    pairwise different, each is at least 1 and below the next value of the
    sequence, and the sequence has advanced by at most one per statement,
    so that no id exceeds the number of statements run. *)
Theorem upserts_ids (items : list Item.t) :
  NoDup (map id (rows (upserts items empty_table)))
  /\ Forall (fun r => 1 <= id r < id_seq (upserts items empty_table))
       (rows (upserts items empty_table))
  /\ 1 <= id_seq (upserts items empty_table)
     <= 1 + Z.of_nat (List.length items).
Proof.
  pose proof (upserts_well_formed items empty_table well_formed_empty)
    as [_ Hi Hs].
  destruct (upserts_positive_ids items empty_table) as [G1 G2];
    [simpl; lia | constructor |].
  split; [exact Hi|]. split.
  - rewrite Forall_forall in *. intros r Hr.
    specialize (G1 r Hr). specialize (Hs r Hr). lia.
  - change (id_seq empty_table) with 1 in G2. lia.
Qed.

Lemma UPSERT_SQL_not_present (it : Item.t) (t : table) :
  id_seq t <= max_serial -> required_present it = false ->
  exists t', UPSERT_SQL it t = Raised NotNullViolation t'.
Proof.
  intros Hs H. pose proof (UPSERT_SQL_case it t) as C.
  unfold required_present in H.
  inversion C as [Hx| |ti u ls rs' _ E1 E2 E3 _|ti u ls _ E1 E2 E3 _ _
                  |ti u ls _ E1 E2 E3 _ _];
    try (rewrite E1, E2, E3 in H; discriminate).
  - lia.
  - eauto.
Qed.

(** X23. A statement that raises leaves the rows as they were.  On a table that
    satisfies the constraints of the schema, with a sequence value left,
    the statement completes exactly when the item gives [title], [url] and
    [last_seen] a value, and raises a NOT NULL violation otherwise. *)
Theorem UPSERT_SQL_failure (it : Item.t) (t : table) :
  (forall e t', UPSERT_SQL it t = Raised e t' -> rows t' = rows t)
  /\ (well_formed t -> id_seq t <= max_serial ->
      ((exists t', UPSERT_SQL it t = Done t') <-> required_present it = true)
      /\ (required_present it = false ->
          exists t', UPSERT_SQL it t = Raised NotNullViolation t')).
Proof.
  split.
  - intros e t' H. pose proof (UPSERT_SQL_case it t) as C.
    rewrite H in C. inversion C; subst; reflexivity.
  - intros Hwf Hs. split; [split|].
    + intros (t' & H). pose proof (UPSERT_SQL_case it t) as C.
      rewrite H in C. unfold required_present.
      inversion C as [| |ti u ls rs' _ E1 E2 E3 _| |ti u ls _ E1 E2 E3 _ _];
        subst; now rewrite E1, E2, E3.
    + intros H.
      destruct (required_present_inv it H) as (ti & u & ls & E1 & E2 & E3).
      destruct (UPSERT_SQL_Done it t ti u ls Hwf Hs E1 E2 E3)
        as (l1 & l2 & n & E & _).
      eauto.
    + intros H. pose proof (UPSERT_SQL_case it t) as C.
      unfold required_present in H.
      inversion C as [Hx| |ti u ls rs' _ E1 E2 E3 _|ti u ls _ E1 E2 E3 _ _
                      |ti u ls _ E1 E2 E3 _ _];
        try (rewrite E1, E2, E3 in H; discriminate).
      * lia.
      * eauto.
Qed.

Lemma UPSERT_SQL_failure_witness :
  (exists t', UPSERT_SQL item_untitled table_xyz
              = Raised NotNullViolation t')
  /\ rows (table_of (UPSERT_SQL item_untitled table_xyz)) = rows table_xyz.
Proof.
  destruct (UPSERT_SQL_failure item_untitled table_xyz) as [H1 H2].
  destruct H2 as [_ H2].
  - apply upserts_well_formed, well_formed_empty.
  - vm_compute. discriminate.
  - destruct (H2 eq_refl) as (t' & E). split; [eauto|].
    rewrite E. apply (H1 _ _ E).
Defined.

Lemma UPSERT_SQL_keys (it : Item.t) (t : table) :
  exists added,
    map (fun r => (id r, url r)) (rows (table_of (UPSERT_SQL it t)))
    = map (fun r => (id r, url r)) (rows t) ++ added
    /\ (List.length added <= 1)%nat.
Proof.
  destruct (UPSERT_SQL_case it t)
    as [| |ti u ls rs' _ _ _ _ Hc| |ti u ls _ _ _ _ _ _]; simpl;
    try (exists []; rewrite app_nil_r; split; [reflexivity | simpl; lia]).
  - exists []. rewrite app_nil_r. split; [|simpl; lia].
    eapply on_conflict_map; [|eassumption]. reflexivity.
  - eexists. rewrite map_app. split; [reflexivity | simpl; lia].
Qed.

Lemma upserts_keys (items : list Item.t) (t : table) :
  exists added,
    map (fun r => (id r, url r)) (rows (upserts items t))
    = map (fun r => (id r, url r)) (rows t) ++ added
    /\ (List.length added <= List.length items)%nat.
Proof.
  revert t. induction items as [|it items IH]; intros t.
  - exists []. simpl. rewrite app_nil_r. auto.
  - destruct (UPSERT_SQL_keys it t) as (a1 & E1 & L1).
    destruct (IH (table_of (UPSERT_SQL it t))) as (a2 & E2 & L2).
    exists (a1 ++ a2). simpl upserts. rewrite E2, E1, <- app_assoc.
    split; [reflexivity|]. rewrite length_app. simpl. lia.
Qed.

(** X24. Nothing is ever deleted or renumbered: after any run of upserts,
    for every row that was stored there is a row stored under the same id
    and the same url; the number of rows has not gone down, and has gone up
    by at most one per statement. *)
Theorem upserts_keep_rows (items : list Item.t) (t : table) :
  (forall r,
     In r (rows t) ->
     exists r',
       In r' (rows (upserts items t)) /\ id r' = id r /\ url r' = url r)
  /\ (List.length (rows t) <= List.length (rows (upserts items t))
      <= List.length (rows t) + List.length items)%nat.
Proof.
  destruct (upserts_keys items t) as (added & E & L). split.
  - intros r Hr.
    assert (In (id r, url r)
              (map (fun x => (id x, url x)) (rows (upserts items t)))) as H.
    { rewrite E. apply in_or_app. left.
      apply (in_map (fun x => (id x, url x))), Hr. }
    apply in_map_iff in H. destruct H as (r' & Er & Hr').
    exists r'. injection Er as E1 E2. auto.
  - apply (f_equal (@List.length (Z * string))) in E.
    rewrite length_app, !length_map in E. lia.
Qed.

(** X25. An upsert touches no row stored under another url: such a row is in the
    table after the statement exactly if it was there before. *)
Theorem UPSERT_SQL_other_urls (it : Item.t) (t : table) (u : string)
  (r : row) :
  Item.url it = Some u -> url r <> u ->
  In r (rows t) <-> In r (rows (table_of (UPSERT_SQL it t))).
Proof.
  intros Eu Hne.
  destruct (UPSERT_SQL_case it t)
    as [| |ti u' ls rs' _ _ Eu' _ Hc| |ti u' ls _ _ Eu' _ _ _]; simpl;
    try tauto.
  - assert (u' = u) as -> by congruence.
    destruct (on_conflict_Some _ _ _ _ Hc) as (l1 & r0 & l2 & -> & -> & Hu & _).
    rewrite !in_app_iff. simpl. split.
    + intros [H|[H|H]]; auto. subst r0. contradiction.
    + intros [H|[H|H]]; auto. subst r. simpl in Hne. contradiction.
  - assert (u' = u) as -> by congruence.
    rewrite in_app_iff. simpl. split; auto.
    intros [H|[H|[]]]; auto. subst r. simpl in Hne. now elim Hne.
Qed.

Lemma UPSERT_SQL_other_urls_witness :
  In (hd no_row (rows table_xyz))
     (rows (table_of (UPSERT_SQL (candidate "New" "Y" true "t" None day2)
                        table_xyz))).
Proof.
  apply (UPSERT_SQL_other_urls (candidate "New" "Y" true "t" None day2)
           table_xyz "Y" (hd no_row (rows table_xyz))).
  - reflexivity.
  - vm_compute. discriminate.
  - vm_compute. left. reflexivity.
Defined.

(** ** Batches *)

Lemma overwrite_with_excluded (it : Item.t) (n : Z) (ti u : string)
  (ls : date) :
  Item.title it = Some ti -> Item.last_seen it = Some ls ->
  overwrite_with it (excluded n ti u ls it) = excluded n ti u ls it.
Proof.
  intros E1 E2. unfold overwrite_with. now rewrite E1, E2.
Qed.

Lemma upserts_latest (items : list Item.t) (t : table) :
  well_formed t ->
  id_seq t + Z.of_nat (List.length items) <= max_serial + 1 ->
  forallb required_present items = true ->
  forall r',
    In r' (rows (upserts items t)) ->
    match latest (url r') items with
    | Some it => r' = overwrite_with it r'
    | None => In r' (rows t)
    end.
Proof.
  revert t. induction items as [|x items IH]; intros t Hwf Hs Hp r' Hin.
  - exact Hin.
  - simpl in Hp. apply andb_true_iff in Hp. destruct Hp as [Hx Hp].
    destruct (required_present_inv x Hx) as (ti & u & ls & Eti & Eu & Els).
    rewrite length_cons, Nat2Z.inj_succ in Hs.
    assert (id_seq t <= max_serial) as Hs0 by lia.
    destruct (UPSERT_SQL_Done x t ti u ls Hwf Hs0 Eti Eu Els)
      as (l1 & l2 & n & E & Hshape).
    pose proof (UPSERT_SQL_well_formed x t Hwf) as Hwf1.
    simpl in Hin. rewrite E in *. simpl in Hwf1. simpl table_of in Hin.
    assert (id_seq {| rows := l1 ++ excluded n ti u ls x :: l2;
                      id_seq := id_seq t + 1 |}
            + Z.of_nat (List.length items) <= max_serial + 1) as Hs1
      by (unfold max_serial in *; simpl; lia).
    specialize (IH _ Hwf1 Hs1 Hp r' Hin).
    simpl latest. destruct (latest (url r') items) as [it|]; [exact IH|].
    rewrite Eu. simpl in IH.
    destruct (String.eqb_spec u (url r')) as [Heq|Hne].
    + assert (r' = excluded n ti u ls x) as ->.
      { apply (url_determines_row (l1 ++ excluded n ti u ls x :: l2)); auto.
        - apply (wf_url _ Hwf1).
        - apply in_elt. }
      symmetry. now apply overwrite_with_excluded.
    + apply in_app_or in IH. destruct IH as [H | [H | H]].
      * destruct Hshape as [(r & -> & _) | (-> & _)];
          [apply in_or_app; now left | exact H].
      * subst r'. now elim Hne.
      * destruct Hshape as [(r & -> & _) | (_ & -> & _)];
          [apply in_or_app; right; now right | contradiction].
Qed.



Lemma latest_In (u : string) (items : list Item.t) (it : Item.t) :
  latest u items = Some it -> In it items /\ Item.url it = Some u.
Proof.
  induction items as [|x items IH]; simpl; [discriminate|].
  destruct (latest u items) as [y|].
  - intros H. injection H as ->. destruct (IH eq_refl). auto.
  - destruct (Item.url x) as [u'|] eqn:E; [|discriminate].
    destruct (String.eqb_spec u' u) as [->|]; [|discriminate].
    intros H. injection H as <-. auto.
Qed.

Lemma forallb_In {A : Type} (p : A -> bool) (l : list A) (x : A) :
  forallb p l = true -> In x l -> p x = true.
Proof.
  intros H. rewrite forallb_forall in H. apply H.
Qed.

(** A batch whose urls are all stored already rewrites the rows where they
    stand: each row named by the batch takes the values of the last item
    that names it, the others stay. *)
Lemma upserts_all_updates (items : list Item.t) (t : table) :
  well_formed t ->
  id_seq t + Z.of_nat (List.length items) <= max_serial + 1 ->
  forallb required_present items = true ->
  (forall it u,
     In it items -> Item.url it = Some u -> In u (map url (rows t))) ->
  rows (upserts items t)
  = map (fun r => match latest (url r) items with
                  | Some it => overwrite_with it r
                  | None => r
                  end) (rows t).
Proof.
  revert t. induction items as [|x items IH]; intros t Hwf Hs Hp Hin.
  - simpl. now rewrite map_id.
  - simpl in Hp. apply andb_true_iff in Hp. destruct Hp as [Hx Hp].
    destruct (required_present_inv x Hx) as (ti & u & ls & Eti & Eu & Els).
    rewrite length_cons, Nat2Z.inj_succ in Hs.
    assert (id_seq t <= max_serial) as Hs0 by lia.
    destruct (UPSERT_SQL_Done x t ti u ls Hwf Hs0 Eti Eu Els)
      as (l1 & l2 & n & E & [(r0 & Er & Hu0 & Hn) | (Er & _ & Hnew & _)]).
    2: { exfalso. apply Hnew. rewrite <- Er.
         apply (Hin x u (or_introl eq_refl) Eu). }
    pose proof (UPSERT_SQL_well_formed x t Hwf) as Hwf1.
    simpl upserts. rewrite E in *. simpl in Hwf1. simpl table_of.
    rewrite IH; auto.
    + simpl rows. rewrite Er, !map_app. simpl map.
      pose proof (wf_url _ Hwf) as Nd. rewrite Er, map_app in Nd.
      simpl in Nd. pose proof (NoDup_remove_2 _ _ _ Nd) as Hout.
      rewrite Hu0 in Hout.
      assert (forall l,
                (forall r, In r l -> In (url r) (map url l1 ++ map url l2)) ->
                map (fun r => match latest (url r) items with
                              | Some it => overwrite_with it r
                              | None => r
                              end) l
                = map (fun r => match latest (url r) (x :: items) with
                                | Some it => overwrite_with it r
                                | None => r
                                end) l) as Hsame.
      { intros l Hl. apply map_ext_in. intros r Hr. simpl latest.
        destruct (latest (url r) items); auto.
        rewrite Eu. destruct (String.eqb_spec u (url r)) as [Heq|]; auto.
        exfalso. apply Hout. rewrite Heq. now apply Hl. }
      f_equal; [|f_equal].
      * apply Hsame. intros r Hr. apply in_or_app. left. now apply in_map.
      * simpl latest. simpl url at 1. rewrite <- Hu0.
        destruct (latest (url r0) items) as [it|] eqn:L.
        -- destruct (latest_In _ _ _ L) as [Hit _].
           pose proof (forallb_In _ _ _ Hp Hit) as Pit.
           destruct (required_present_inv it Pit)
             as (ti' & u' & ls' & E1 & _ & E3).
           unfold overwrite_with. rewrite E1, E3.
           unfold do_update_set, excluded. simpl. now rewrite Hn.
        -- rewrite Eu, Hu0, String.eqb_refl.
           unfold overwrite_with. rewrite Eti, Els.
           unfold do_update_set, excluded. now rewrite Hn, Hu0.
      * apply Hsame. intros r Hr. apply in_or_app. right. now apply in_map.
    + unfold max_serial in *. simpl. lia.
    + intros it u' Hit Eu'. simpl rows. rewrite map_app. simpl map.
      specialize (Hin it u' (or_intror Hit) Eu').
      rewrite Er, map_app in Hin. simpl in Hin. now rewrite Hu0 in Hin.
Qed.

(** X27. Running a batch a second time changes no row: the run commits again,
    prints the same line, and leaves the rows the first run left (only the
    sequence moves on). *)
Theorem main_with_twice (items : list Item.t) (d : database) :
  well_formed (SCHEMA_SQL d) ->
  id_seq (SCHEMA_SQL d) + 2 * Z.of_nat (List.length items)
  <= max_serial + 1 ->
  forallb required_present items = true ->
  exists t1 t2 line,
    main_with items d = Printed (Some t1) line
    /\ main_with items (Some t1) = Printed (Some t2) line
    /\ rows t2 = rows t1.
Proof.
  intros Hwf Hs Hp.
  destruct (execute_each_Done items (SCHEMA_SQL d) Hwf ltac:(lia) Hp)
    as [E1 Hseq].
  pose proof (upserts_well_formed items _ Hwf) as Hwf1.
  set (t1 := upserts items (SCHEMA_SQL d)) in *.
  assert (id_seq t1 + Z.of_nat (List.length items) <= max_serial + 1)
    as Hs1 by lia.
  destruct (execute_each_Done items t1 Hwf1 Hs1 Hp) as [E2 _].
  exists t1, (upserts items t1). eexists.
  split; [unfold main_with; rewrite E1; reflexivity|].
  split.
  { unfold main_with. change (SCHEMA_SQL (Some t1)) with t1.
    rewrite E2. reflexivity. }
  rewrite upserts_all_updates; auto.
  - rewrite <- (map_id (rows t1)) at 2. apply map_ext_in.
    intros r Hr.
    pose proof (upserts_latest items (SCHEMA_SQL d) Hwf
                  ltac:(lia) Hp r Hr) as L.
    destruct (latest (url r) items); auto.
  - intros it u Hit Eu.
    apply (upserts_stores_urls items (SCHEMA_SQL d) Hwf ltac:(lia) Hp
             it u Hit Eu).
Qed.

Lemma main_with_twice_witness :
  exists t1 t2 line,
    main_with [item_x "first" day1; item_x "second" day2; item_empty] None
    = Printed (Some t1) line
    /\ main_with [item_x "first" day1; item_x "second" day2; item_empty]
         (Some t1)
       = Printed (Some t2) line
    /\ rows t2 = rows t1.
Proof.
  apply main_with_twice.
  - exact well_formed_empty.
  - vm_compute. discriminate.
  - reflexivity.
Defined.

Lemma execute_each_not_present (items : list Item.t) (t : table) :
  well_formed t ->
  id_seq t + Z.of_nat (List.length items) <= max_serial + 1 ->
  forallb required_present items = false ->
  exists t', execute_each items t = Raised NotNullViolation t'.
Proof.
  revert t. induction items as [|x items IH]; intros t Hwf Hs Hp.
  - discriminate.
  - rewrite length_cons, Nat2Z.inj_succ in Hs.
    assert (id_seq t <= max_serial) as Hs0 by lia.
    simpl in Hp. simpl execute_each.
    destruct (required_present x) eqn:Px.
    + destruct (required_present_inv x Px) as (ti & u & ls & E1 & E2 & E3).
      destruct (UPSERT_SQL_Done x t ti u ls Hwf Hs0 E1 E2 E3)
        as (l1 & l2 & n & E & _).
      pose proof (UPSERT_SQL_well_formed x t Hwf) as Hwf1.
      rewrite E in *. simpl in Hwf1.
      apply IH; auto. unfold max_serial in *. simpl. lia.
    + destruct (UPSERT_SQL_not_present x t Hs0 Px) as (t' & E).
      rewrite E. eauto.
Qed.

(** X28. On a database whose table satisfies the constraints of the schema, with
    sequence values left for the batch: the run commits exactly when every
    item gives [title], [url] and [last_seen] a value; otherwise it fails
    with a NOT NULL violation and the rows stored are those stored before
    it, none of the batch among them. *)
Theorem main_with_commits_iff (items : list Item.t) (d : database) :
  well_formed (SCHEMA_SQL d) ->
  id_seq (SCHEMA_SQL d) + Z.of_nat (List.length items) <= max_serial + 1 ->
  ((exists t line, main_with items d = Printed (Some t) line)
   <-> forallb required_present items = true)
  /\ (forallb required_present items = false ->
      exists d',
        main_with items d = Failed d' NotNullViolation
        /\ stored d' = stored d).
Proof.
  intros Hwf Hs.
  assert (forallb required_present items = false ->
          exists d',
            main_with items d = Failed d' NotNullViolation
            /\ stored d' = stored d) as Hfail.
  { intros Hp.
    destruct (execute_each_not_present items _ Hwf Hs Hp) as (t' & E).
    unfold main_with. rewrite E. eexists. split; [reflexivity|].
    apply stored_rollback. }
  split; [|exact Hfail]. split.
  - intros (t & line & H).
    destruct (forallb required_present items) eqn:Hp; auto.
    destruct (Hfail eq_refl) as (d' & E & _). congruence.
  - intros Hp. unfold main_with.
    destruct (execute_each_Done items _ Hwf Hs Hp) as [E _].
    rewrite E. eauto.
Qed.

Lemma main_with_commits_iff_witness :
  exists d',
    main_with [item_x "first" day1; item_untitled] (Some table_xyz)
    = Failed d' NotNullViolation
    /\ stored d' = stored (Some table_xyz).
Proof.
  apply (proj2 (main_with_commits_iff
                  [item_x "first" day1; item_untitled] (Some table_xyz)
                  ltac:(apply upserts_well_formed, well_formed_empty)
                  ltac:(vm_compute; discriminate))).
  reflexivity.
Defined.

(** ** Creating the table *)

(** X29. [init_db] can be run any number of times: it keeps the rows stored, a
    second run changes nothing, and whether it ran before an ingestion
    changes neither whether the ingestion commits nor what is stored
    after it. *)
Theorem init_db_neutral (d : database) (items : list Item.t) :
  init_db (init_db d) = init_db d
  /\ stored (init_db d) = stored d
  /\ stored (database_of (main_with items (init_db d)))
     = stored (database_of (main_with items d))
  /\ forall t line,
       main_with items (init_db d) = Printed (Some t) line
       <-> main_with items d = Printed (Some t) line.
Proof.
  split; [reflexivity|]. split; [destruct d; reflexivity|].
  unfold main_with, init_db.
  change (SCHEMA_SQL (Some (SCHEMA_SQL d))) with (SCHEMA_SQL d).
  destruct (execute_each items (SCHEMA_SQL d)) as [t1|e t1].
  - split; [reflexivity|]. intros t line. reflexivity.
  - split.
    + simpl database_of. rewrite !stored_rollback. destruct d; reflexivity.
    + intros t line. split; discriminate.
Qed.

(** ** What [last_seen] is given *)

Lemma latest_exists (u : string) (items : list Item.t) (it : Item.t) :
  In it items -> Item.url it = Some u ->
  exists it', latest u items = Some it'.
Proof.
  induction items as [|x items IH]; intros Hin Eu; [contradiction|].
  simpl. destruct (latest u items) as [y|] eqn:L; [eauto|].
  destruct Hin as [->|Hin].
  - rewrite Eu, String.eqb_refl. eauto.
  - destruct (IH Hin Eu) as (it' & E). discriminate.
Qed.

(** C8 (as amended). The ingestion stores the [last_seen] it is given, not
    the day it runs on: after a batch that commits, the record under the
    url of each candidate carries the [last_seen] supplied by the last
    candidate of the batch that names this url.  [main] builds each of its
    candidates with the day of the run, so after a run of [main] the records
    of its candidates carry that day, and from one run of [main] to the
    next, on days that do not go back, no record's [last_seen] goes back. *)
Theorem C8_last_seen_as_supplied
  (items : list Item.t) (d : database) (today1 today2 : date) :
  (well_formed (SCHEMA_SQL d) ->
   id_seq (SCHEMA_SQL d) + Z.of_nat (List.length items) <= max_serial + 1 ->
   forallb required_present items = true ->
   exists t line,
     main_with items d = Printed (Some t) line
     /\ forall it u,
          In it items -> Item.url it = Some u ->
          exists r it',
            with_url u (rows t) = [r]
            /\ latest u items = Some it'
            /\ Item.last_seen it' = Some (last_seen r))
  /\ (well_formed (SCHEMA_SQL d) ->
      id_seq (SCHEMA_SQL d) + 6 <= max_serial + 1 ->
      date_leb today1 today2 = true ->
      exists t1 line1 t2 line2,
        main today1 d = Printed (Some t1) line1
        /\ main today2 (Some t1) = Printed (Some t2) line2
        /\ (forall it u,
              In it (sample today1) -> Item.url it = Some u ->
              exists r, with_url u (rows t1) = [r] /\ last_seen r = today1)
        /\ (forall it u,
              In it (sample today2) -> Item.url it = Some u ->
              exists r, with_url u (rows t2) = [r] /\ last_seen r = today2)
        /\ (forall r1 r2,
              In r1 (rows t1) -> In r2 (rows t2) -> url r1 = url r2 ->
              date_leb (last_seen r1) (last_seen r2) = true)).
Proof.
  split; [|apply main_two_runs].
  intros Hwf Hs Hp. unfold main_with.
  destruct (execute_each_Done items _ Hwf Hs Hp) as [E _]. rewrite E.
  eexists. eexists. split; [reflexivity|].
  intros it u Hin Eu.
  pose proof (upserts_well_formed items _ Hwf) as Hwf'.
  pose proof (upserts_stores_urls items _ Hwf Hs Hp it u Hin Eu) as Hu.
  apply in_map_iff in Hu. destruct Hu as (r & Hur & Hr).
  destruct (latest_exists u items it Hin Eu) as (it' & L).
  exists r, it'. split; [|split; [exact L|]].
  - destruct (in_split _ _ Hr) as (l1 & l2 & Esplit).
    rewrite Esplit, <- Hur. apply with_url_unique.
    rewrite <- Esplit. apply (wf_url _ Hwf').
  - pose proof (upserts_latest items _ Hwf Hs Hp r Hr) as W.
    rewrite Hur, L in W.
    destruct (latest_In _ _ _ L) as [Hit' _].
    destruct (required_present_inv it' (forallb_In _ _ _ Hp Hit'))
      as (ti & u' & ls & E1 & _ & E3).
    rewrite W. unfold overwrite_with. rewrite E1, E3. reflexivity.
Qed.

Lemma C8_last_seen_as_supplied_witness :
  (exists t line,
     main_with [seen_on day1 (hd item_empty (sample day2))]
       (Some (upserts (sample day2) empty_table))
     = Printed (Some t) line
     /\ exists r,
          with_url "https://example.com/cfp/ai-infra" (rows t) = [r]
          /\ Some day1 = Some (last_seen r))
  /\ (exists t1 line1 t2 line2,
        main day1 None = Printed (Some t1) line1
        /\ main day2 (Some t1) = Printed (Some t2) line2
        /\ map last_seen (rows t1) = [day1; day1; day1]
        /\ map last_seen (rows t2) = [day2; day2; day2]).
Proof.
  destruct (C8_last_seen_as_supplied
              [seen_on day1 (hd item_empty (sample day2))]
              (Some (upserts (sample day2) empty_table)) day1 day2)
    as [H1 _].
  destruct (C8_last_seen_as_supplied [] None day1 day2) as [_ H2].
  split.
  - destruct H1 as (t & line & E & H).
    + apply upserts_well_formed, well_formed_empty.
    + vm_compute. discriminate.
    + reflexivity.
    + exists t, line. split; [exact E|].
      destruct (H (seen_on day1 (hd item_empty (sample day2)))
                  "https://example.com/cfp/ai-infra"
                  (or_introl eq_refl) eq_refl)
        as (r & it' & Er & L & Els).
      exists r. split; [exact Er|].
      vm_compute in L. injection L as <-. exact Els.
  - destruct H2 as (t1 & line1 & t2 & line2 & E1 & E2 & _).
    + exact well_formed_empty.
    + vm_compute. discriminate.
    + reflexivity.
    + exists t1, line1, t2, line2.
      split; [exact E1|]. split; [exact E2|].
      vm_compute in E1. injection E1 as <- _.
      vm_compute in E2. injection E2 as <- _.
      split; reflexivity.
Defined.

(** After a run of [main] on 2025-03-01, a candidate of [main] presented
    again with the [last_seen] 2025-01-15 is stored with that day: the
    record does not carry the day of a run, and its [last_seen] has gone
    back. *)
Lemma C8_counterexample :
  exists t1 line1 t2 line2 r1 r2,
    main day2 None = Printed (Some t1) line1
    /\ main_with [seen_on day1 (hd item_empty (sample day2))] (Some t1)
       = Printed (Some t2) line2
    /\ with_url "https://example.com/cfp/ai-infra" (rows t1) = [r1]
    /\ with_url "https://example.com/cfp/ai-infra" (rows t2) = [r2]
    /\ last_seen r1 = day2
    /\ last_seen r2 = day1
    /\ date_leb (last_seen r1) (last_seen r2) = false.
Proof.
  do 6 eexists.
  split; [vm_compute; reflexivity|].
  split; [vm_compute; reflexivity|].
  split; [vm_compute; reflexivity|].
  split; [vm_compute; reflexivity|].
  split; [reflexivity|]. split; reflexivity.
Qed.

(** ** Ties *)

Lemma fetch_may_answer
  (q tag : option string) (remote : option bool) (limit : Z) (t : table)
  (res : list row) :
  fetch_opportunities q tag remote limit t = Ok res ->
  may_answer q tag remote limit t res.
Proof.
  unfold fetch_opportunities. fold (selected q tag remote). intros H.
  exists (order_by (filter (selected q tag remote) (rows t))).
  split; [symmetry; apply order_by_perm|].
  split; [apply order_by_sorted | exact H].
Qed.

Lemma key_compare_antisym (k k' : option date * date) :
  key_compare k' k = CompOpp (key_compare k k').
Proof.
  unfold key_compare.
  rewrite (Z.compare_antisym
             (match fst k with None => 1 | Some _ => 0 end)
             (match fst k' with None => 1 | Some _ => 0 end)).
  rewrite (asc_compare_antisym (fst k) (fst k')).
  rewrite (date_compare_antisym (snd k') (snd k)).
  destruct (_ ?= _); simpl; auto.
  destruct (asc_compare (fst k) (fst k')); simpl; auto.
Qed.

Lemma key_compare_eq (k k' : option date * date) :
  key_compare k k' = Eq -> k = k'.
Proof.
  destruct k as [[x|] s], k' as [[y|] s']; unfold key_compare; simpl;
    try discriminate.
  - destruct (date_compare x y) eqn:E; try discriminate.
    apply date_compare_eq in E. intros H. apply date_compare_eq in H.
    congruence.
  - intros H. apply date_compare_eq in H. congruence.
Qed.

Lemma key_leb_antisym (k k' : option date * date) :
  key_leb k k' = true -> key_leb k' k = true -> k = k'.
Proof.
  unfold key_leb. rewrite (key_compare_antisym k k'). intros H1 H2.
  apply key_compare_eq.
  destruct (key_compare k k'); auto; discriminate.
Qed.

Lemma sorted_keys_unique (K K' : list (option date * date)) :
  Permutation K K' ->
  StronglySorted (fun a b => key_leb a b = true) K ->
  StronglySorted (fun a b => key_leb a b = true) K' ->
  K = K'.
Proof.
  revert K'. induction K as [|k K IH]; intros K' P S S'.
  - apply Permutation_nil in P. now subst.
  - destruct K' as [|k' K'].
    { apply Permutation_sym, Permutation_nil in P. discriminate. }
    inversion S as [|? ? S1 F1]; subst.
    inversion S' as [|? ? S1' F1']; subst.
    rewrite Forall_forall in F1, F1'.
    assert (k = k') as ->.
    { assert (In k (k' :: K')) as H1
        by (apply (Permutation_in _ P); now left).
      assert (In k' (k :: K)) as H2
        by (apply (Permutation_in _ (Permutation_sym P)); now left).
      destruct H1 as [->|H1]; auto.
      destruct H2 as [->|H2]; auto.
      apply key_leb_antisym; auto. }
    f_equal. apply IH; auto.
    now apply Permutation_cons_inv in P.
Qed.

Lemma sorted_rows_keys (l : list row) :
  Sorted (fun a b => order_leb a b = true) l ->
  StronglySorted (fun a b => key_leb a b = true) (map sort_key l).
Proof.
  intros H. apply Sorted_StronglySorted in H;
    [|intros a b d; apply order_leb_trans].
  induction H as [|a l S IH F]; simpl; constructor; auto.
  rewrite Forall_forall in *. intros k Hk.
  apply in_map_iff in Hk. destruct Hk as (b & <- & Hb).
  exact (F b Hb).
Qed.

(** X11. Whatever order the database gives to records whose keys tie, a
    smaller limit returns the beginning of what a larger limit returns as
    far as [ORDER BY] can tell: the deadlines and last-seen days of the
    records returned for [n] are those of the first [n] records returned
    for [m]. *)
Theorem limit_prefix_of_keys
  (q tag : option string) (remote : option bool) (n m : Z) (t : table)
  (res_n res_m : list row) :
  0 <= n <= m ->
  may_answer q tag remote n t res_n ->
  may_answer q tag remote m t res_m ->
  map sort_key res_n = firstn (Z.to_nat n) (map sort_key res_m).
Proof.
  intros Hn (l & P & S & E) (l' & P' & S' & E').
  apply sql_limit_Ok in E. destruct E as [_ ->].
  apply sql_limit_Ok in E'. destruct E' as [_ ->].
  assert (map sort_key l = map sort_key l') as K.
  { apply sorted_keys_unique; try now apply sorted_rows_keys.
    apply Permutation_map.
    now rewrite P, P'. }
  rewrite <- !firstn_map, K, firstn_firstn.
  f_equal. lia.
Qed.

Lemma limit_prefix_of_keys_witness :
  map sort_key (rows_of (fetch_opportunities None None None 1 table_xyz))
  = firstn (Z.to_nat 1)
      (map sort_key
         (rows_of (fetch_opportunities None None None 2 table_xyz))).
Proof.
  apply (limit_prefix_of_keys None None None 1 2 table_xyz).
  - lia.
  - apply fetch_may_answer. vm_compute. reflexivity.
  - apply fetch_may_answer. vm_compute. reflexivity.
Defined.
